(** * Merge hull: divide-and-conquer convex hull (convex_hull.cpp)

    A shallow embedding of [geom::algorithms::convex_hull::merge_hull] and of
    the functions it is built from, followed by the properties of the
    embedding.  Loops of the source are run by a fuel-indexed [while]
    combinator; a computation ends in one of four ways, see [outcome]. *)

From Stdlib Require Import String ZArith List Lia Bool Arith PeanoNat.
From Stdlib Require Import Permutation Sorted.
Import ListNotations.

Set Implicit Arguments.

(* ================================================================== *)
(** ** Points and the orientation predicate *)
(* ================================================================== *)

(** Modelled from the spec: [point_type] and its operators come from
    [geom/primitives/*.h], which is not among the sources.  The spec gives a
    point as a pair of ordered numeric coordinates with exact arithmetic, the
    lexicographic order [(x, then y)], the difference of two points and the
    scalar cross product of two displacements. *)
Record point_type : Type := mk_point { px : Z; py : Z }.

Record vector_type : Type := mk_vector { vx : Z; vy : Z }.

(** [b - a] *)
Definition point_sub (b a : point_type) : vector_type :=
  mk_vector (px b - px a) (py b - py a).

(** [v1 ^ v2] *)
Definition cross (v1 v2 : vector_type) : Z :=
  (vx v1 * vy v2 - vy v1 * vx v2)%Z.

(** [a < b] *)
Definition point_lt (a b : point_type) : bool :=
  (px a <? px b)%Z || ((px a =? px b)%Z && (py a <? py b)%Z).

(** [a > b] *)
Definition point_gt (a b : point_type) : bool := point_lt b a.

Definition point_eqb (a b : point_type) : bool :=
  (px a =? px b)%Z && (py a =? py b)%Z.

Inductive turn_type : Type := COLLINEAR | LEFT | RIGHT.

Definition turn_eqb (s t : turn_type) : bool :=
  match s, t with
  | COLLINEAR, COLLINEAR | LEFT, LEFT | RIGHT, RIGHT => true
  | _, _ => false
  end.

(** [sgn], lines 23-30. *)
Definition sgn (x : Z) : Z :=
  if (x =? 0)%Z then 0%Z else if (x <? 0)%Z then (-1)%Z else 1%Z.

(** [turn], lines 33-48. *)
Definition turn (a b c : point_type) : turn_type :=
  let v1 := point_sub b a in
  let v2 := point_sub c a in
  let sign := sgn (cross v1 v2) in
  match sign with
  | Zneg xH => RIGHT
  | Zpos xH => LEFT
  | _ => COLLINEAR
  end.

(* ================================================================== *)
(** ** Outcomes of a computation *)
(* ================================================================== *)

Inductive exn : Type := logic_error (what : string).

(** [Done a]: the call returns [a].  [Throw e]: a C++ exception leaves the
    call.  [Fault]: the call dereferences a position outside its sequence
    (undefined behaviour in the source).  [Timeout]: the fuel given to the
    loops ran out before the call returned. *)
Inductive outcome (A : Type) : Type :=
| Done (a : A)
| Throw (e : exn)
| Fault
| Timeout.

Arguments Throw {A} e.
Arguments Fault {A}.
Arguments Timeout {A}.

Definition bind {A B : Type} (m : outcome A) (k : A -> outcome B) : outcome B :=
  match m with
  | Done a => k a
  | Throw e => Throw e
  | Fault => Fault
  | Timeout => Timeout
  end.

Notation "x <- m ;; k" := (bind m (fun x => k))
  (at level 61, m at next level, right associativity).
Notation "' p <- m ;; k" := (bind m (fun p => k))
  (at level 61, p pattern, m at next level, right associativity).

(** A [while (cond) body] loop over a state [St], run for at most [fuel]
    tests of its condition. *)
Fixpoint while {St : Type} (fuel : nat)
  (cond : St -> outcome bool) (body : St -> outcome St) (s : St) : outcome St :=
  match fuel with
  | O => Timeout
  | S fuel' =>
      b <- cond s ;;
      if b : bool then s' <- body s ;; while fuel' cond body s' else Done s
  end.

(* ================================================================== *)
(** ** Contours, builders and circulators *)
(* ================================================================== *)

(** [contour_type]: the point sequence [pts_]. *)
Definition contour_type : Type := list point_type.

Definition vertices_num (c : contour_type) : nat := length c.

(** [contour_builder_type], lines 58-72. *)
Definition contour_builder_type : Type := list point_type.

Definition new_builder : contour_builder_type := [].

Definition add_point (builder : contour_builder_type) (pt : point_type)
  : contour_builder_type := builder ++ [pt].

Definition get_result (builder : contour_builder_type) : contour_type := builder.

(** Modelled from the spec: [contour_circulator] is declared in
    [geom/primitives/contour.h], which is not among the sources.  The spec
    gives it as a contour together with an index, stepped with modular
    arithmetic, compared by position, whose dereference is the point at the
    position; [prev()] and [next()] give the neighbouring points. *)
Record contour_circulator : Type :=
  mk_circulator { contour_ : contour_type; itr_ : nat }.

Definition circulator (c : contour_type) : contour_circulator :=
  mk_circulator c 0.

(** [++c] *)
Definition inc (c : contour_circulator) : contour_circulator :=
  mk_circulator (contour_ c) ((itr_ c + 1) mod length (contour_ c)).

(** [--c] *)
Definition dec (c : contour_circulator) : contour_circulator :=
  mk_circulator (contour_ c)
    ((itr_ c + length (contour_ c) - 1) mod length (contour_ c)).

(** [*c] *)
Definition deref (c : contour_circulator) : outcome point_type :=
  match nth_error (contour_ c) (itr_ c) with
  | Some p => Done p
  | None => Fault
  end.

(** [c.prev()], [c.next()] *)
Definition prev (c : contour_circulator) : outcome point_type := deref (dec c).
Definition next (c : contour_circulator) : outcome point_type := deref (inc c).

(** [a == b], for circulators over one contour. *)
Definition circ_eqb (a b : contour_circulator) : bool :=
  Nat.eqb (itr_ a) (itr_ b).

(* ================================================================== *)
(** ** The divide driver and the merge engine *)
(* ================================================================== *)

(** [boost::sort(pts)]: the ascending arrangement of [pts] by [<].  The order
    is total and equal points coincide, so the arrangement is unique and any
    sorting procedure gives it. *)
Fixpoint insert (p : point_type) (l : list point_type) : list point_type :=
  match l with
  | [] => [p]
  | q :: l' => if point_lt q p then q :: insert p l' else p :: q :: l'
  end.

Definition sort (pts : list point_type) : list point_type :=
  fold_right insert [] pts.

(** [is_tangent(p1, p2, p3)], lines 127-132. *)
Definition is_tangent (p1 p2 p3 : point_type) : bool :=
  negb (turn_eqb (turn p1 p2 p3) RIGHT).

(** [is_tangent(p1, p2, contour)], lines 114-125. *)
Definition is_tangent_contour (p1 p2 : point_type) (contour : contour_type) : bool :=
  forallb (fun q => negb (turn_eqb (turn p1 p2 q) RIGHT)) contour.

Definition tangent_state : Type := (contour_circulator * contour_circulator)%type.

(** The test [!is_tangent(a, b, circular_A.prev())], where [a] and [b] are the
    points under [circular_A] and [circular_B]. *)
Definition not_tangent_prev (s : tangent_state) : outcome bool :=
  let '(circular_A, circular_B) := s in
  a <- deref circular_A ;; b <- deref circular_B ;; p <- prev circular_A ;;
  Done (negb (is_tangent a b p)).

(** The test [!is_tangent(a, b, circular_B.next())]. *)
Definition not_tangent_next (s : tangent_state) : outcome bool :=
  let '(circular_A, circular_B) := s in
  a <- deref circular_A ;; b <- deref circular_B ;; n <- next circular_B ;;
  Done (negb (is_tangent a b n)).

(** [find_tangent], lines 134-145. *)
Definition find_tangent (fuel : nat) (s : tangent_state) : outcome tangent_state :=
  while fuel
    (fun s => b1 <- not_tangent_prev s ;;
              if b1 : bool then Done true else not_tangent_next s)
    (fun s =>
       s1 <- while fuel not_tangent_prev
               (fun '(circular_A, circular_B) => Done (dec circular_A, circular_B)) s ;;
       while fuel not_tangent_next
         (fun '(circular_A, circular_B) => Done (circular_A, inc circular_B)) s1)
    s.

(** State of the locator loops: [current], [prev], [next]. *)
Definition locator_state : Type :=
  (contour_circulator * contour_circulator * contour_circulator)%type.

(** The loop condition of [set_leftmost] and [set_rightmost] for the
    comparison [lt]: not (current [lt] prev and current [lt] next), on the
    points under the three circulators, the second test made only when the
    first holds. *)
Definition not_extreme (lt : point_type -> point_type -> bool)
  (s : locator_state) : outcome bool :=
  let '(current, prev, next) := s in
  c <- deref current ;; p <- deref prev ;;
  if lt c p then n <- deref next ;; Done (negb (lt c n)) else Done true.

Definition step_locator (s : locator_state) : outcome locator_state :=
  let '(current, prev, next) := s in Done (inc current, inc prev, inc next).

Definition set_extreme (lt : point_type -> point_type -> bool)
  (fuel : nat) (current : contour_circulator) : outcome contour_circulator :=
  let prev := dec current in
  let next := inc current in
  if circ_eqb prev current && circ_eqb current next then Done current
  else
    s <- while fuel (not_extreme lt) step_locator (current, prev, next) ;;
    Done (fst (fst s)).

(** [set_leftmost], lines 147-162. *)
Definition set_leftmost : nat -> contour_circulator -> outcome contour_circulator :=
  set_extreme point_lt.

(** [set_rightmost], lines 164-179. *)
Definition set_rightmost : nat -> contour_circulator -> outcome contour_circulator :=
  set_extreme point_gt.

(** The loop of [is_on_one_line], lines 188-192: every three consecutive
    points make a [COLLINEAR] turn. *)
Fixpoint triples_collinear (pts : list point_type) : bool :=
  match pts with
  | a :: (b :: c :: _) as rest =>
      if turn_eqb (turn a b c) COLLINEAR then triples_collinear rest else false
  | _ => true
  end.

(** [is_on_one_line(contour)], lines 181-195. *)
Definition is_on_one_line (contour : contour_type) : bool :=
  if vertices_num contour <=? 2 then true else triples_collinear contour.

(** [is_on_one_line(A, B)], lines 197-211. *)
Definition is_on_one_line2 (A B : contour_type) : bool :=
  let builder := fold_left add_point A new_builder in
  let builder := fold_left add_point B builder in
  is_on_one_line (get_result builder).

Definition walk_state : Type := (contour_builder_type * contour_circulator)%type.

(** The loop [while (beg != end)] that adds the point under [beg] to the
    builder and steps [beg]. *)
Definition walk (step : contour_circulator -> contour_circulator)
  (fuel : nat) (builder : contour_builder_type) (beg end_ : contour_circulator)
  : outcome walk_state :=
  while fuel
    (fun '(_, beg) => Done (negb (circ_eqb beg end_)))
    (fun '(builder, beg) => p <- deref beg ;; Done (add_point builder p, step beg))
    (builder, beg).

(** [build_oneline_contour], lines 213-239. *)
Definition build_oneline_contour (fuel : nat) (A B : contour_type)
  : outcome contour_type :=
  let circular_A := circulator A in
  let circular_B := circulator B in
  circular_A <- set_leftmost fuel circular_A ;;
  circular_B <- set_leftmost fuel circular_B ;;
  let end_A := dec circular_A in
  let end_B := dec circular_B in
  '(builder, _) <- walk inc fuel new_builder circular_A end_A ;;
  p <- deref end_A ;;
  let builder := add_point builder p in
  '(builder, _) <- walk inc fuel builder circular_B end_B ;;
  p <- deref end_B ;;
  let builder := add_point builder p in
  Done (get_result builder).

(** [add_oneline_contour_to_builder], lines 241-259. *)
Definition add_oneline_contour_to_builder (fuel : nat)
  (builder : contour_builder_type) (beg end_ : contour_circulator)
  : outcome contour_builder_type :=
  let beg := inc beg in
  '(builder, _) <-
     (if circ_eqb beg end_
      then walk dec fuel builder (dec beg) end_
      else walk inc fuel builder (dec beg) end_) ;;
  p <- deref end_ ;;
  Done (add_point builder p).

(** [add_convex_contour_to_builder], lines 261-269. *)
Definition add_convex_contour_to_builder (fuel : nat)
  (builder : contour_builder_type) (beg end_ : contour_circulator)
  : outcome contour_builder_type :=
  '(builder, _) <- walk inc fuel builder beg end_ ;;
  p <- deref end_ ;;
  Done (add_point builder p).

(** [add_contour_to_builder], lines 271-280. *)
Definition add_contour_to_builder (fuel : nat)
  (builder : contour_builder_type) (contour : contour_type)
  (beg end_ : contour_circulator) : outcome contour_builder_type :=
  if is_on_one_line contour
  then add_oneline_contour_to_builder fuel builder beg end_
  else add_convex_contour_to_builder fuel builder beg end_.

(** [merge], lines 282-310. *)
Definition merge (fuel : nat) (A B : contour_type) : outcome contour_type :=
  if is_on_one_line2 A B then build_oneline_contour fuel A B
  else
    let circular_A := circulator A in
    let circular_B := circulator B in
    (* find lower tangent *)
    circular_A <- set_rightmost fuel circular_A ;;
    circular_B <- set_leftmost fuel circular_B ;;
    '(circular_A, circular_B) <- find_tangent fuel (circular_A, circular_B) ;;
    let a_down := circular_A in
    let b_down := circular_B in
    (* find upper tangent *)
    circular_A <- set_rightmost fuel circular_A ;;
    circular_B <- set_leftmost fuel circular_B ;;
    '(circular_B, circular_A) <- find_tangent fuel (circular_B, circular_A) ;;
    let a_up := circular_A in
    let b_up := circular_B in
    builder <- add_contour_to_builder fuel new_builder A a_up a_down ;;
    builder <- add_contour_to_builder fuel builder B b_down b_up ;;
    Done (get_result builder).

(** The two halves of a range of [distance] points: [[beg, middle)] and
    [[middle, end)] with [middle = beg + distance / 2], line 107. *)
Definition split_range (rng : list point_type)
  : list point_type * list point_type :=
  let distance := length rng in
  let middle := distance / 2 in
  (firstn middle rng, skipn middle rng).

(** [merge_hull_impl], lines 95-112, on the range [[beg, end)] given as the
    list of its points.  The fuel also bounds the depth of the recursion. *)
Fixpoint merge_hull_impl (fuel : nat) (rng : list point_type)
  : outcome contour_type :=
  match fuel with
  | O => Timeout
  | S fuel' =>
      let distance := length rng in
      if distance <=? 2 then
        let builder := fold_left add_point rng new_builder in
        Done (get_result builder)
      else
        let '(left_range, right_range) := split_range rng in
        left_contour <- merge_hull_impl fuel' left_range ;;
        right_contour <- merge_hull_impl fuel' right_range ;;
        merge fuel' left_contour right_contour
  end.

(** [merge_hull], lines 85-93. *)
Definition merge_hull (fuel : nat) (pts : list point_type) : outcome contour_type :=
  if length pts <? 2 then
    Throw (logic_error "not enough points to build convex hull")
  else
    let pts := sort pts in
    merge_hull_impl fuel pts.

(* ================================================================== *)
(** ** Properties that the spec states, as executable checks *)
(* ================================================================== *)

(** The vertex at position [i], counted cyclically. *)
Definition vertex (h : contour_type) (i : nat) : point_type :=
  nth (i mod length h) h (mk_point 0 0).

(** The edges of a contour read cyclically: each vertex with its successor,
    the last with the first. *)
Definition edges (h : contour_type) : list (point_type * point_type) :=
  map (fun i => (vertex h i, vertex h (i + 1))) (seq 0 (length h)).

(** Every point of [pts] is on or to the left of every edge of [h]: no edge
    sees a point with a [RIGHT] turn. *)
Definition contains (h : contour_type) (pts : list point_type) : bool :=
  forallb (fun e => forallb (fun p => is_tangent (fst e) (snd e) p) pts) (edges h).

(** The consecutive triples of a contour read cyclically. *)
Definition corners (h : contour_type) : list (point_type * point_type * point_type) :=
  map (fun i => (vertex h i, vertex h (i + 1), vertex h (i + 2))) (seq 0 (length h)).

Definition no_right_turn (h : contour_type) : bool :=
  forallb (fun t => is_tangent (fst (fst t)) (snd (fst t)) (snd t)) (corners h).

(** All the vertices lie on one line: every three of them are collinear. *)
Definition all_collinear (h : list point_type) : bool :=
  forallb (fun a => forallb (fun b => forallb (fun c =>
    turn_eqb (turn a b c) COLLINEAR) h) h) h.

Definition convex_or_collinear (h : contour_type) : bool :=
  no_right_turn h || all_collinear h.

(** [safe Q m]: the computation [m] neither throws nor faults, and when it
    returns its result satisfies [Q]. *)
Definition safe {A : Type} (Q : A -> Prop) (m : outcome A) : Prop :=
  match m with
  | Done a => Q a
  | Timeout => True
  | Throw _ | Fault => False
  end.

(** [over c k]: the circulator [k] runs over the contour [c] and stands at one
    of its positions. *)
Definition over (c : contour_type) (k : contour_circulator) : Prop :=
  contour_ k = c /\ itr_ k < length c.

(** The vertex at position [j] is a strict extreme for [lt]: it is [lt] both
    of its circular neighbours. *)
Definition is_extreme (lt : point_type -> point_type -> bool)
  (c : contour_type) (j : nat) : bool :=
  match nth_error c j,
        nth_error c ((j + length c - 1) mod length c),
        nth_error c ((j + 1) mod length c) with
  | Some p, Some q, Some r => lt p q && lt p r
  | _, _, _ => false
  end.

(** The three circulators of a locator loop run over [c]. *)
Definition locator_inv (c : contour_type) (s : locator_state) : Prop :=
  over c (fst (fst s)) /\ over c (snd (fst s)) /\ over c (snd s).

(** The two circulators of a tangent search run over [A] and [B]. *)
Definition tangent_inv (A B : contour_type) (s : tangent_state) : Prop :=
  over A (fst s) /\ over B (snd s).

(** A builder that holds at least one point and only points of [X]. *)
Definition built (X : list point_type) (builder : contour_builder_type) : Prop :=
  builder <> [] /\ incl builder X.

(** [refines m1 m2]: whatever [m1] returns, [m2] returns as well. *)
Definition refines {A : Type} (m1 m2 : outcome A) : Prop :=
  forall a, m1 = Done a -> m2 = Done a.

(** Every three points of [l] are collinear. *)
Definition Collinear (l : list point_type) : Prop :=
  forall a b c, In a l -> In b l -> In c l -> turn a b c = COLLINEAR.

(** No point of [l] is followed by an equal point. *)
Fixpoint no_repeated_neighbour (l : list point_type) : bool :=
  match l with
  | a :: (b :: _) as rest => negb (point_eqb a b) && no_repeated_neighbour rest
  | _ => true
  end.

(** [on_line o d x]: [x] is on the line through [o] with direction [d]. *)
Definition on_line (o : point_type) (d : vector_type) (x : point_type) : Prop :=
  cross d (point_sub x o) = 0%Z.

(** The [d] vertices met from position [i] of [c] in steps of [s] positions,
    counted cyclically. *)
Definition arc (c : contour_type) (s i d : nat) : list point_type :=
  map (fun e => vertex c (i + e * s)) (seq 0 d).

(** The points of [l] are in strictly ascending order. *)
Definition ascending (l : list point_type) : Prop :=
  StronglySorted (fun a b => point_lt a b = true) l.

(** The points of [l] are in ascending order, equal points allowed. *)
Definition nondescending (l : list point_type) : Prop :=
  StronglySorted (fun a b => point_lt b a = false) l.

(* ================================================================== *)
(** ** The orientation predicate *)
(* ================================================================== *)

Lemma cross_antisym (v1 v2 : vector_type) : cross v1 v2 = (- cross v2 v1)%Z.
Proof. unfold cross. ring. Qed.

Lemma sgn_cases (z : Z) :
  (z < 0 /\ sgn z = -1)%Z \/ (z = 0 /\ sgn z = 0)%Z \/ (0 < z /\ sgn z = 1)%Z.
Proof.
  unfold sgn.
  destruct (Z.eqb_spec z 0) as [-> | Hz]; [right; left; split; reflexivity |].
  destruct (Z.ltb_spec z 0); [left | right; right]; split; auto; lia.
Qed.

Lemma turn_spec (a b c : point_type) :
  let d := cross (point_sub b a) (point_sub c a) in
  (d < 0 /\ turn a b c = RIGHT)%Z \/
  (d = 0 /\ turn a b c = COLLINEAR)%Z \/
  (0 < d /\ turn a b c = LEFT)%Z.
Proof.
  intros d. unfold turn. fold d.
  destruct (sgn_cases d) as [[H ->] | [[H ->] | [H ->]]]; auto.
Qed.

Lemma turn_RIGHT_iff (a b c : point_type) :
  turn a b c = RIGHT <-> (cross (point_sub b a) (point_sub c a) < 0)%Z.
Proof.
  destruct (turn_spec a b c) as [[H E] | [[H E] | [H E]]]; rewrite E;
    split; intros; try discriminate; try lia; reflexivity.
Qed.

Lemma turn_LEFT_iff (a b c : point_type) :
  turn a b c = LEFT <-> (0 < cross (point_sub b a) (point_sub c a))%Z.
Proof.
  destruct (turn_spec a b c) as [[H E] | [[H E] | [H E]]]; rewrite E;
    split; intros; try discriminate; try lia; reflexivity.
Qed.

Lemma turn_COLLINEAR_iff (a b c : point_type) :
  turn a b c = COLLINEAR <-> cross (point_sub b a) (point_sub c a) = 0%Z.
Proof.
  destruct (turn_spec a b c) as [[H E] | [[H E] | [H E]]]; rewrite E;
    split; intros; try discriminate; try lia; reflexivity.
Qed.

(** C10.  Swapping the last two arguments of [turn] exchanges [LEFT] and
    [RIGHT] and keeps [COLLINEAR]: [turn a b c] is [LEFT] exactly when
    [turn a c b] is [RIGHT], and [COLLINEAR] exactly when [turn a c b] is. *)
Theorem turn_antisymmetric (a b c : point_type) :
  (turn a b c = LEFT <-> turn a c b = RIGHT) /\
  (turn a b c = COLLINEAR <-> turn a c b = COLLINEAR).
Proof.
  rewrite turn_LEFT_iff, turn_RIGHT_iff, !turn_COLLINEAR_iff.
  rewrite (cross_antisym (point_sub c a) (point_sub b a)).
  split; lia.
Qed.

(* ================================================================== *)
(** ** Reasoning about outcomes and loops *)
(* ================================================================== *)

Lemma bind_Done {A B : Type} (m : outcome A) (k : A -> outcome B) (b : B) :
  bind m k = Done b -> exists a, m = Done a /\ k a = Done b.
Proof. destruct m; simpl; intros H; try discriminate. eauto. Qed.

Lemma safe_weaken {A : Type} (Q R : A -> Prop) (m : outcome A) :
  (forall a, Q a -> R a) -> safe Q m -> safe R m.
Proof. destruct m; simpl; auto. Qed.

Lemma safe_bind {A B : Type} (Q : A -> Prop) (R : B -> Prop)
  (m : outcome A) (k : A -> outcome B) :
  safe Q m -> (forall a, Q a -> safe R (k a)) -> safe R (bind m k).
Proof. destruct m; simpl; auto. Qed.

(** The invariant rule of [while]: an invariant that makes the test safe and
    is kept by the body holds when the loop returns. *)
Lemma safe_while {St : Type} (Inv : St -> Prop)
  (cond : St -> outcome bool) (body : St -> outcome St) :
  (forall s, Inv s -> safe (fun _ => True) (cond s)) ->
  (forall s, Inv s -> cond s = Done true -> safe Inv (body s)) ->
  forall fuel s, Inv s ->
    safe (fun s' => Inv s' /\ cond s' = Done false) (while fuel cond body s).
Proof.
  intros Hc Hb. induction fuel as [| fuel IH]; intros s Hs; simpl; [exact I |].
  pose proof (Hc s Hs) as Hcs. pose proof (Hb s Hs) as Hbs.
  destruct (cond s) as [[|] | | |] eqn:E; simpl in *; try contradiction; auto.
  specialize (Hbs eq_refl).
  destruct (body s) as [s' | | |]; simpl in *; try contradiction; auto.
Qed.

Lemma while_S {St : Type} (fuel : nat)
  (cond : St -> outcome bool) (body : St -> outcome St) (s : St) :
  while (S fuel) cond body s =
  (b <- cond s ;;
   if b : bool then s' <- body s ;; while fuel cond body s' else Done s).
Proof. reflexivity. Qed.

(** More fuel does not change what a loop returns. *)
Lemma while_mono {St : Type} (cond : St -> outcome bool)
  (body1 body2 : St -> outcome St) :
  (forall s s', body1 s = Done s' -> body2 s = Done s') ->
  forall fuel1 fuel2 s s', fuel1 <= fuel2 ->
    while fuel1 cond body1 s = Done s' -> while fuel2 cond body2 s = Done s'.
Proof.
  intros Hb. induction fuel1 as [| fuel1 IH]; intros fuel2 s s' Hle; simpl;
    [discriminate |].
  destruct fuel2 as [| fuel2]; [lia |]. simpl.
  destruct (cond s) as [[|] | | |]; simpl; try discriminate; auto.
  destruct (body1 s) as [s1 | | |] eqn:E1; simpl; try discriminate.
  rewrite (Hb _ _ E1). simpl. apply IH. lia.
Qed.

(** A loop whose test stays true on a set of states closed under the body
    never returns, whatever the fuel. *)
Lemma while_diverges {St : Type} (Inv : St -> Prop)
  (cond : St -> outcome bool) (body : St -> outcome St) :
  (forall s, Inv s -> cond s = Done true) ->
  (forall s, Inv s -> exists s', body s = Done s' /\ Inv s') ->
  forall fuel s, Inv s -> while fuel cond body s = Timeout.
Proof.
  intros Hc Hb. induction fuel as [| fuel IH]; intros s Hs; simpl; [reflexivity |].
  rewrite (Hc s Hs). simpl.
  destruct (Hb s Hs) as [s' [-> Hs']]. simpl. auto.
Qed.

(* ================================================================== *)
(** ** Circulators *)
(* ================================================================== *)

Lemma over_nonempty (c : contour_type) (k : contour_circulator) :
  over c k -> length c <> 0.
Proof. intros [_ H]. lia. Qed.

Lemma over_circulator (c : contour_type) : c <> [] -> over c (circulator c).
Proof.
  intros H. split; [reflexivity |]. destruct c; [contradiction | simpl; lia].
Qed.

Lemma over_inc (c : contour_type) (k : contour_circulator) :
  over c k -> over c (inc k).
Proof.
  intros [Hc Hi]. split; simpl; [exact Hc |]. rewrite Hc.
  apply Nat.mod_upper_bound. lia.
Qed.

Lemma over_dec (c : contour_type) (k : contour_circulator) :
  over c k -> over c (dec k).
Proof.
  intros [Hc Hi]. split; simpl; [exact Hc |]. rewrite Hc.
  apply Nat.mod_upper_bound. lia.
Qed.

Lemma deref_over (c : contour_type) (k : contour_circulator) :
  over c k -> exists p, deref k = Done p /\ nth_error c (itr_ k) = Some p /\ In p c.
Proof.
  intros [Hc Hi]. unfold deref. rewrite Hc.
  destruct (nth_error c (itr_ k)) as [p |] eqn:E.
  - exists p. repeat split. eapply nth_error_In; eauto.
  - apply nth_error_None in E. lia.
Qed.

Lemma safe_deref (c : contour_type) (k : contour_circulator) :
  over c k -> safe (fun p => In p c) (deref k).
Proof.
  intros H. destruct (deref_over H) as [p [-> [_ Hp]]]. exact Hp.
Qed.

Create HintDb hull.
#[local] Hint Resolve over_inc over_dec over_circulator safe_deref : hull.

(* ================================================================== *)
(** ** Safety: positions stay inside their contour, points come from it *)
(* ================================================================== *)

Lemma safe_not_extreme lt (c : contour_type) (s : locator_state) :
  locator_inv c s -> safe (fun _ => True) (not_extreme lt s).
Proof.
  destruct s as [[cu pr] nx]. intros (H1 & H2 & H3). simpl in *.
  destruct (deref_over H1) as [p [-> _]]. destruct (deref_over H2) as [q [-> _]].
  destruct (deref_over H3) as [r [-> _]]. simpl.
  destruct (lt p q); simpl; exact I.
Qed.

Lemma safe_set_extreme lt (fuel : nat) (c : contour_type) (k : contour_circulator) :
  over c k -> safe (over c) (set_extreme lt fuel k).
Proof.
  intros H. unfold set_extreme.
  destruct (circ_eqb (dec k) k && circ_eqb k (inc k)); [exact H |].
  eapply safe_bind.
  - apply (safe_while (locator_inv c)).
    + intros s Hs. eapply safe_not_extreme; eauto.
    + intros [[cu pr] nx] (H1 & H2 & H3) _. simpl in *.
      repeat split; simpl; auto with hull; apply H1 || apply H2 || apply H3 || idtac;
        rewrite ?(proj1 H1), ?(proj1 H2), ?(proj1 H3);
        apply Nat.mod_upper_bound; eapply over_nonempty; eauto.
    + repeat split; simpl; auto with hull; try apply H;
        rewrite ?(proj1 H); apply Nat.mod_upper_bound; eapply over_nonempty; eauto.
  - intros [[cu pr] nx] [(H1 & _) _]. exact H1.
Qed.

Lemma safe_not_tangent_prev (A B : contour_type) (s : tangent_state) :
  tangent_inv A B s -> safe (fun _ => True) (not_tangent_prev s).
Proof.
  destruct s as [a b]. intros [Ha Hb]. simpl in *. unfold prev.
  destruct (deref_over Ha) as [p [-> _]]. destruct (deref_over Hb) as [q [-> _]].
  destruct (deref_over (over_dec Ha)) as [r [-> _]]. exact I.
Qed.

Lemma safe_not_tangent_next (A B : contour_type) (s : tangent_state) :
  tangent_inv A B s -> safe (fun _ => True) (not_tangent_next s).
Proof.
  destruct s as [a b]. intros [Ha Hb]. simpl in *. unfold next.
  destruct (deref_over Ha) as [p [-> _]]. destruct (deref_over Hb) as [q [-> _]].
  destruct (deref_over (over_inc Hb)) as [r [-> _]]. exact I.
Qed.

Lemma safe_find_tangent (fuel : nat) (A B : contour_type) (s : tangent_state) :
  tangent_inv A B s -> safe (tangent_inv A B) (find_tangent fuel s).
Proof.
  intros Hs. unfold find_tangent.
  eapply safe_weaken; [| apply (safe_while (tangent_inv A B)); [| | exact Hs]].
  - intros s' [H _]. exact H.
  - intros s0 H0. eapply safe_bind; [eapply safe_not_tangent_prev; eauto |].
    intros [|] _; [exact I | eapply safe_not_tangent_next; eauto].
  - intros s0 H0 _. eapply safe_bind.
    + apply (safe_while (tangent_inv A B)); [| | exact H0].
      * intros; eapply safe_not_tangent_prev; eauto.
      * intros [a b] [Ha Hb] _. split; simpl in *; auto with hull.
    + intros s1 [H1 _].
      eapply safe_weaken; [| apply (safe_while (tangent_inv A B)); [| | exact H1]].
      * intros s' [H _]. exact H.
      * intros; eapply safe_not_tangent_next; eauto.
      * intros [a b] [Ha Hb] _. split; simpl in *; auto with hull.
Qed.

Lemma incl_add_point (X : list point_type) (builder : contour_builder_type)
  (p : point_type) : incl builder X -> In p X -> incl (add_point builder p) X.
Proof.
  intros Hb Hp q Hq. apply in_app_or in Hq. destruct Hq as [Hq | [<- | []]]; auto.
Qed.

Lemma add_point_nonempty (builder : contour_builder_type) (p : point_type) :
  add_point builder p <> [].
Proof. unfold add_point. destruct builder; discriminate. Qed.

Lemma safe_walk step (fuel : nat) (c X : list point_type)
  (builder : contour_builder_type) (beg end_ : contour_circulator) :
  (forall k, over c k -> over c (step k)) ->
  incl c X -> incl builder X -> over c beg ->
  safe (fun s => incl (fst s) X) (walk step fuel builder beg end_).
Proof.
  intros Hstep HcX Hb Hbeg. unfold walk.
  eapply safe_weaken;
    [| apply (safe_while (fun s : walk_state => incl (fst s) X /\ over c (snd s)))].
  - intros s [[H _] _]. exact H.
  - intros [b k] _. exact I.
  - intros [b k] [H1 H2] _. simpl in *.
    destruct (deref_over H2) as [p [-> [_ Hp]]]. simpl.
    split; auto using incl_add_point.
  - split; assumption.
Qed.

Lemma safe_add_contour_to_builder (fuel : nat) (X : list point_type)
  (builder : contour_builder_type) (contour : contour_type)
  (beg end_ : contour_circulator) :
  incl contour X -> incl builder X -> over contour beg -> over contour end_ ->
  safe (built X) (add_contour_to_builder fuel builder contour beg end_).
Proof.
  intros HcX Hb Hbeg Hend.
  assert (Hfin : forall s : walk_state, incl (fst s) X ->
            safe (built X) (let '(builder, _) := s in
                            p <- deref end_ ;; Done (add_point builder p))).
  { intros [b k] Hs. simpl in Hs.
    destruct (deref_over Hend) as [p [-> [_ Hp]]]. simpl.
    split; [apply add_point_nonempty | auto using incl_add_point]. }
  unfold add_contour_to_builder, add_oneline_contour_to_builder,
    add_convex_contour_to_builder.
  destruct (is_on_one_line contour).
  - eapply safe_bind; [| exact Hfin].
    destruct (circ_eqb (inc beg) end_);
      apply safe_walk with (c := contour); auto using over_inc, over_dec.
  - eapply safe_bind; [| exact Hfin].
    apply safe_walk with (c := contour); auto using over_inc.
Qed.

Lemma safe_build_oneline_contour (fuel : nat) (A B : contour_type) :
  A <> [] -> B <> [] ->
  safe (built (A ++ B)) (build_oneline_contour fuel A B).
Proof.
  intros HA HB. unfold build_oneline_contour.
  assert (HAX : incl A (A ++ B)) by (apply incl_appl, incl_refl).
  assert (HBX : incl B (A ++ B)) by (apply incl_appr, incl_refl).
  eapply safe_bind; [apply (@safe_set_extreme point_lt fuel A); auto with hull |].
  intros a Ha.
  eapply safe_bind; [apply (@safe_set_extreme point_lt fuel B); auto with hull |].
  intros b Hb.
  eapply safe_bind;
    [apply safe_walk with (c := A) (X := A ++ B); auto using over_inc |].
  { intros q []. }
  intros [b1 k1] H1. simpl in H1.
  destruct (deref_over (over_dec Ha)) as [p [-> [_ Hp]]]. simpl.
  eapply safe_bind;
    [apply safe_walk with (c := B) (X := A ++ B);
       auto using over_inc, incl_add_point |].
  intros [b2 k2] H2. simpl in H2.
  destruct (deref_over (over_dec Hb)) as [q [-> [_ Hq]]]. simpl.
  split; [apply add_point_nonempty | apply incl_add_point; auto].
Qed.

Lemma safe_merge (fuel : nat) (A B : contour_type) :
  A <> [] -> B <> [] -> safe (built (A ++ B)) (merge fuel A B).
Proof.
  intros HA HB. unfold merge.
  destruct (is_on_one_line2 A B); [apply safe_build_oneline_contour; auto |].
  assert (HAX : incl A (A ++ B)) by (apply incl_appl, incl_refl).
  assert (HBX : incl B (A ++ B)) by (apply incl_appr, incl_refl).
  eapply safe_bind; [apply (@safe_set_extreme point_gt fuel A); auto with hull |].
  intros a Ha.
  eapply safe_bind; [apply (@safe_set_extreme point_lt fuel B); auto with hull |].
  intros b Hb.
  eapply safe_bind;
    [apply (@safe_find_tangent fuel A B (a, b)); split; assumption |].
  intros [a_down b_down] [Had Hbd]. simpl in Had, Hbd.
  eapply safe_bind; [apply (@safe_set_extreme point_gt fuel A); auto |].
  intros a' Ha'.
  eapply safe_bind; [apply (@safe_set_extreme point_lt fuel B); auto |].
  intros b' Hb'.
  eapply safe_bind;
    [apply (@safe_find_tangent fuel B A (b', a')); split; assumption |].
  intros [b_up a_up] [Hbu Hau]. simpl in Hbu, Hau.
  eapply safe_bind;
    [apply safe_add_contour_to_builder with (X := A ++ B); auto |].
  { intros q []. }
  intros b1 [_ Hb1].
  eapply safe_bind;
    [apply safe_add_contour_to_builder with (X := A ++ B); auto |].
  intros b2 Hb2. exact Hb2.
Qed.

(* ================================================================== *)
(** ** The divide driver *)
(* ================================================================== *)

Lemma fold_add_point (rng : list point_type) (builder : contour_builder_type) :
  fold_left add_point rng builder = builder ++ rng.
Proof.
  revert builder. induction rng as [| p rng IH]; intros builder; simpl.
  - now rewrite app_nil_r.
  - rewrite IH. unfold add_point. now rewrite <- app_assoc.
Qed.

Lemma split_range_app (rng : list point_type) :
  fst (split_range rng) ++ snd (split_range rng) = rng.
Proof. apply firstn_skipn. Qed.

Lemma split_range_length (rng : list point_type) :
  length (fst (split_range rng)) = length rng / 2 /\
  length (snd (split_range rng)) = length rng - length rng / 2.
Proof.
  unfold split_range. cbn [fst snd]. rewrite length_firstn, length_skipn.
  pose proof (Nat.div_mod_eq (length rng) 2).
  split; lia.
Qed.

Lemma half_bounds (n : nat) : 3 <= n -> 1 <= n / 2 /\ n / 2 + 2 <= n.
Proof.
  intros H. pose proof (Nat.div_mod_eq n 2) as E.
  pose proof (Nat.mod_upper_bound n 2). lia.
Qed.

Lemma merge_hull_impl_S (fuel : nat) (rng : list point_type) :
  merge_hull_impl (S fuel) rng =
  if length rng <=? 2 then Done (get_result (fold_left add_point rng new_builder))
  else
    left_contour <- merge_hull_impl fuel (fst (split_range rng)) ;;
    right_contour <- merge_hull_impl fuel (snd (split_range rng)) ;;
    merge fuel left_contour right_contour.
Proof. reflexivity. Qed.

Lemma safe_merge_hull_impl (fuel : nat) (rng : list point_type) :
  rng <> [] -> safe (built rng) (merge_hull_impl fuel rng).
Proof.
  revert rng. induction fuel as [| fuel IH]; intros rng Hne; [exact I |].
  rewrite merge_hull_impl_S.
  destruct (Nat.leb_spec (length rng) 2) as [Hle | Hgt].
  - unfold get_result, new_builder. rewrite fold_add_point. simpl.
    split; [exact Hne | apply incl_refl].
  - pose proof (split_range_length rng) as [Hl Hr].
    pose proof (split_range_app rng) as Happ.
    destruct (split_range rng) as [l r]. cbn [fst snd] in *.
    destruct (half_bounds Hgt) as [H1 H2].
    assert (Hln : l <> []) by (intros ->; cbn [length] in Hl; lia).
    assert (Hrn : r <> []) by (intros ->; cbn [length] in Hr; lia).
    eapply safe_bind; [apply IH; exact Hln |].
    intros L [HL HLi].
    eapply safe_bind; [apply IH; exact Hrn |].
    intros R [HR HRi].
    eapply safe_weaken; [| apply safe_merge; assumption].
    intros C [HC HCi]. split; [exact HC |].
    rewrite <- Happ. intros q Hq. apply HCi in Hq.
    apply in_or_app. apply in_app_or in Hq. destruct Hq; [left | right]; auto.
Qed.

Lemma insert_perm (p : point_type) (l : list point_type) :
  Permutation (insert p l) (p :: l).
Proof.
  induction l as [| q l IH]; simpl; [reflexivity |].
  destruct (point_lt q p); [| reflexivity].
  rewrite IH. apply perm_swap.
Qed.

Lemma sort_perm (pts : list point_type) : Permutation (sort pts) pts.
Proof.
  induction pts as [| p pts IH]; simpl; [reflexivity |].
  rewrite insert_perm. now constructor.
Qed.

Lemma point_lt_asym (a b : point_type) : point_lt a b = true -> point_lt b a = false.
Proof.
  unfold point_lt. intros H.
  apply orb_true_iff in H. apply orb_false_iff.
  destruct H as [H | H].
  - apply Z.ltb_lt in H. split; [apply Z.ltb_ge; lia |].
    apply andb_false_iff. left. apply Z.eqb_neq. lia.
  - apply andb_true_iff in H. destruct H as [H1 H2].
    apply Z.eqb_eq in H1. apply Z.ltb_lt in H2.
    split; [apply Z.ltb_ge; lia |].
    apply andb_false_iff. right. apply Z.ltb_ge. lia.
Qed.

Lemma insert_sorted (p : point_type) (l : list point_type) :
  Sorted (fun a b => point_lt b a = false) l ->
  Sorted (fun a b => point_lt b a = false) (insert p l).
Proof.
  induction l as [| q l IH]; intros Hs; simpl.
  - constructor; constructor.
  - inversion Hs as [| q' l' Hl Hq]; subst.
    destruct (point_lt q p) eqn:E.
    + constructor; [auto |].
      destruct l as [| r l]; simpl.
      * constructor. now apply point_lt_asym.
      * destruct (point_lt r p) eqn:E'.
        -- constructor. inversion Hq; subst. assumption.
        -- constructor. now apply point_lt_asym.
    + constructor; [exact Hs | constructor; exact E].
Qed.

(** [sort] gives its points in ascending order: no point is followed by a
    smaller one. *)
Lemma sort_sorted (pts : list point_type) :
  Sorted (fun a b => point_lt b a = false) (sort pts).
Proof.
  induction pts as [| p pts IH]; simpl; [constructor |].
  apply insert_sorted. exact IH.
Qed.

Lemma safe_merge_hull_impl_sorted (fuel : nat) (pts : list point_type) :
  2 <= length pts ->
  safe (fun h => h <> [] /\ incl h pts) (merge_hull_impl fuel (sort pts)).
Proof.
  intros H. pose proof (sort_perm pts) as Hp.
  eapply safe_weaken; [| apply safe_merge_hull_impl].
  - intros h [Hh Hi]. split; [exact Hh |].
    intros q Hq. eapply Permutation_in; [exact Hp | auto].
  - intros E. apply Permutation_length in Hp. rewrite E in Hp. simpl in Hp. lia.
Qed.

(** C3.  Every vertex of the contour that [merge_hull] returns for at least
    two points is one of the input points. *)
Theorem merge_hull_vertices_from_input
  (fuel : nat) (pts : list point_type) (h : contour_type) :
  2 <= length pts ->
  merge_hull fuel pts = Done h ->
  forall p, In p h -> In p pts.
Proof.
  intros Hlen Hrun p Hp. unfold merge_hull in Hrun.
  destruct (Nat.ltb_spec (length pts) 2); [discriminate |].
  pose proof (@safe_merge_hull_impl_sorted fuel pts Hlen) as Hs.
  rewrite Hrun in Hs. destruct Hs as [_ Hi]. auto.
Qed.

(** The three ways a call of [merge_hull] can end. *)
Lemma merge_hull_outcomes (fuel : nat) (pts : list point_type) :
  (length pts < 2 /\
     merge_hull fuel pts = Throw (logic_error "not enough points to build convex hull")) \/
  (2 <= length pts /\ merge_hull fuel pts = Timeout) \/
  (2 <= length pts /\ exists h, merge_hull fuel pts = Done h /\ h <> [] /\ incl h pts).
Proof.
  unfold merge_hull. destruct (Nat.ltb_spec (length pts) 2) as [Hlt | Hge]; [auto |].
  right. pose proof (@safe_merge_hull_impl_sorted fuel pts Hge) as Hs.
  destruct (merge_hull_impl fuel (sort pts)) as [h | | |]; simpl in Hs;
    try contradiction; eauto.
Qed.

(** C5.  [merge_hull] throws exactly when fewer than two points are given; it
    then throws whatever the fuel, that is before any loop or recursive call
    runs; and no other exception and no fault leaves it for any input. *)
Theorem merge_hull_error_iff (fuel : nat) (pts : list point_type) :
  ((exists e, merge_hull fuel pts = Throw e) <-> length pts < 2) /\
  (length pts < 2 ->
     merge_hull 0 pts = Throw (logic_error "not enough points to build convex hull") /\
     merge_hull fuel pts = merge_hull 0 pts) /\
  (2 <= length pts ->
     merge_hull fuel pts = Timeout \/
     exists h, merge_hull fuel pts = Done h /\ h <> [] /\ incl h pts).
Proof.
  destruct (merge_hull_outcomes fuel pts) as [[Hlt E] | [[Hge E] | [Hge [h [E Hh]]]]];
    (split; [split; [intros [e He] | intros Hlt'] | split; [intros Hlt' | intros Hge']]);
    try lia; try (rewrite E in *; discriminate); eauto.
  destruct (merge_hull_outcomes 0 pts) as [[_ E0] | [[Hge _] | [Hge _]]]; try lia.
  rewrite E, E0. auto.
Qed.

(* ================================================================== *)
(** ** Fuel: more of it never changes a returned result *)
(* ================================================================== *)

Lemma refines_refl {A : Type} (m : outcome A) : refines m m.
Proof. intros a H. exact H. Qed.

Lemma refines_bind {A B : Type} (m1 m2 : outcome A) (k1 k2 : A -> outcome B) :
  refines m1 m2 -> (forall a, refines (k1 a) (k2 a)) ->
  refines (bind m1 k1) (bind m2 k2).
Proof.
  intros Hm Hk b H. apply bind_Done in H. destruct H as [a [H1 H2]].
  rewrite (Hm _ H1). simpl. apply Hk. exact H2.
Qed.

Lemma refines_while {St : Type} (cond : St -> outcome bool)
  (body1 body2 : St -> outcome St) (fuel1 fuel2 : nat) (s : St) :
  fuel1 <= fuel2 -> (forall s, refines (body1 s) (body2 s)) ->
  refines (while fuel1 cond body1 s) (while fuel2 cond body2 s).
Proof. intros Hle Hb s' H. eapply while_mono; eauto. Qed.

Create HintDb fuel.
#[local] Hint Resolve refines_refl : fuel.

Ltac refines_chain :=
  repeat first
    [ apply refines_refl
    | solve [auto with fuel]
    | apply refines_while; [assumption | intros]
    | apply refines_bind; [| intros]
    | match goal with |- refines (let '(_, _) := ?s in _) _ => destruct s end
    | match goal with |- refines (if ?b then _ else _) _ => destruct b end ].

Section FuelMonotone.

Variables fuel1 fuel2 : nat.
Hypothesis fuel_le : fuel1 <= fuel2.

Lemma set_extreme_mono lt (k : contour_circulator) :
  refines (set_extreme lt fuel1 k) (set_extreme lt fuel2 k).
Proof. unfold set_extreme. refines_chain. Qed.

Lemma set_leftmost_mono (k : contour_circulator) :
  refines (set_leftmost fuel1 k) (set_leftmost fuel2 k).
Proof. apply set_extreme_mono. Qed.

Lemma set_rightmost_mono (k : contour_circulator) :
  refines (set_rightmost fuel1 k) (set_rightmost fuel2 k).
Proof. apply set_extreme_mono. Qed.

Lemma find_tangent_mono (s : tangent_state) :
  refines (find_tangent fuel1 s) (find_tangent fuel2 s).
Proof. unfold find_tangent. refines_chain. Qed.

Lemma walk_mono step (builder : contour_builder_type)
  (beg end_ : contour_circulator) :
  refines (walk step fuel1 builder beg end_) (walk step fuel2 builder beg end_).
Proof. unfold walk. refines_chain. Qed.

Hint Resolve set_extreme_mono set_leftmost_mono set_rightmost_mono
  find_tangent_mono walk_mono : fuel.

Lemma build_oneline_contour_mono (A B : contour_type) :
  refines (build_oneline_contour fuel1 A B) (build_oneline_contour fuel2 A B).
Proof. unfold build_oneline_contour. refines_chain. Qed.

Lemma add_contour_to_builder_mono (builder : contour_builder_type)
  (contour : contour_type) (beg end_ : contour_circulator) :
  refines (add_contour_to_builder fuel1 builder contour beg end_)
          (add_contour_to_builder fuel2 builder contour beg end_).
Proof.
  unfold add_contour_to_builder, add_oneline_contour_to_builder,
    add_convex_contour_to_builder.
  refines_chain.
Qed.

Hint Resolve build_oneline_contour_mono add_contour_to_builder_mono : fuel.

Lemma merge_mono (A B : contour_type) :
  refines (merge fuel1 A B) (merge fuel2 A B).
Proof. unfold merge. refines_chain. Qed.

End FuelMonotone.

Lemma merge_hull_impl_mono (fuel1 fuel2 : nat) (rng : list point_type) :
  fuel1 <= fuel2 ->
  refines (merge_hull_impl fuel1 rng) (merge_hull_impl fuel2 rng).
Proof.
  revert fuel2 rng. induction fuel1 as [| fuel1 IH]; intros fuel2 rng Hle.
  - intros h H. discriminate.
  - destruct fuel2 as [| fuel2]; [lia |].
    rewrite !merge_hull_impl_S.
    destruct (length rng <=? 2); [apply refines_refl |].
    apply refines_bind; [apply IH; lia | intros L].
    apply refines_bind; [apply IH; lia | intros R].
    apply merge_mono. lia.
Qed.

Lemma merge_hull_mono (fuel1 fuel2 : nat) (pts : list point_type) :
  fuel1 <= fuel2 -> refines (merge_hull fuel1 pts) (merge_hull fuel2 pts).
Proof.
  intros Hle. unfold merge_hull.
  destruct (length pts <? 2); [apply refines_refl |].
  apply merge_hull_impl_mono. exact Hle.
Qed.

(** What [merge_hull] returns does not depend on the fuel. *)
Lemma merge_hull_deterministic (fuel1 fuel2 : nat) (pts : list point_type)
  (h1 h2 : contour_type) :
  merge_hull fuel1 pts = Done h1 -> merge_hull fuel2 pts = Done h2 -> h1 = h2.
Proof.
  intros H1 H2.
  apply (@merge_hull_mono fuel1 (Nat.max fuel1 fuel2) pts) in H1; [| lia].
  apply (@merge_hull_mono fuel2 (Nat.max fuel1 fuel2) pts) in H2; [| lia].
  congruence.
Qed.

(** A call that is out of fuel is out of fuel with any smaller amount. *)
Lemma merge_hull_Timeout_below (fuel1 fuel2 : nat) (pts : list point_type) :
  fuel1 <= fuel2 -> merge_hull fuel2 pts = Timeout -> merge_hull fuel1 pts = Timeout.
Proof.
  intros Hle H2.
  destruct (merge_hull_outcomes fuel1 pts) as [[Hlt E] | [[Hge E] | [Hge [h [E _]]]]].
  - destruct (merge_hull_outcomes fuel2 pts) as [[_ E2] | [[Hge _] | [Hge _]]];
      try lia. congruence.
  - exact E.
  - apply (@merge_hull_mono fuel1 fuel2 pts Hle) in E. congruence.
Qed.

(* ================================================================== *)
(** ** The split of the divide driver *)
(* ================================================================== *)

(** C8, as the spec states it, fails on a range of three points: the left
    half gets one point and the right half two, so the extra point of an odd
    range does not go to the left half. *)
Lemma split_range_odd_counterexample :
  let rng := [mk_point 0 0; mk_point 1 0; mk_point 2 0] in
  3 <= length rng /\ Nat.odd (length rng) = true /\
  fst (split_range rng) = [mk_point 0 0] /\
  snd (split_range rng) = [mk_point 1 0; mk_point 2 0] /\
  length (fst (split_range rng)) <> length (snd (split_range rng)) + 1.
Proof. cbv. repeat split; try lia; discriminate. Qed.

(** C8, amended.  On a range of [n >= 3] points the divide driver splits at
    index [n / 2]: the left half has the first [n / 2] points, the right half
    the other [n - n / 2]; for even [n] the halves are equal in size and for
    odd [n] the right half has one point more.  The driver then hulls the left
    half, then the right half, and merges the two contours. *)
Theorem merge_hull_impl_splits_at_middle (fuel : nat) (rng : list point_type) :
  3 <= length rng ->
  let n := length rng in
  let left_range := fst (split_range rng) in
  let right_range := snd (split_range rng) in
  left_range = firstn (n / 2) rng /\
  right_range = skipn (n / 2) rng /\
  left_range ++ right_range = rng /\
  length left_range = n / 2 /\
  length right_range = n - n / 2 /\
  (Nat.even n = true -> length right_range = length left_range) /\
  (Nat.odd n = true -> length right_range = length left_range + 1) /\
  merge_hull_impl (S fuel) rng =
    (left_contour <- merge_hull_impl fuel left_range ;;
     right_contour <- merge_hull_impl fuel right_range ;;
     merge fuel left_contour right_contour).
Proof.
  intros Hlen n left_range right_range.
  destruct (split_range_length rng) as [Hl Hr].
  fold left_range in Hl. fold right_range in Hr. fold n in Hl, Hr.
  repeat split; try assumption; try reflexivity.
  - apply split_range_app.
  - intros He. apply Nat.even_spec in He. destruct He as [m Hm].
    rewrite Hl, Hr, Hm. rewrite Nat.mul_comm, Nat.div_mul by discriminate. lia.
  - intros Ho. apply Nat.odd_spec in Ho. destruct Ho as [m Hm].
    rewrite Hl, Hr, Hm.
    replace ((2 * m + 1) / 2) with m; [lia |].
    rewrite Nat.add_comm, Nat.mul_comm, Nat.div_add by discriminate.
    reflexivity.
  - rewrite merge_hull_impl_S.
    destruct (Nat.leb_spec (length rng) 2); [lia | reflexivity].
Qed.

(** The split of a range of five points: two on the left, three on the
    right. *)
Lemma merge_hull_impl_splits_at_middle_witness :
  let rng := [mk_point 0 0; mk_point 0 2; mk_point 1 1; mk_point 2 0; mk_point 2 2] in
  3 <= length rng /\
  length (fst (split_range rng)) = 2 /\ length (snd (split_range rng)) = 3 /\
  merge_hull_impl 6 rng =
    (left_contour <- merge_hull_impl 5 (fst (split_range rng)) ;;
     right_contour <- merge_hull_impl 5 (snd (split_range rng)) ;;
     merge 5 left_contour right_contour).
Proof.
  intros rng.
  assert (H : 3 <= length rng) by (cbv; lia).
  pose proof (@merge_hull_impl_splits_at_middle 5 rng H) as T.
  cbv zeta in T.
  destruct T as (_ & _ & _ & Hl & Hr & _ & _ & Hrun).
  split; [exact H |]. split; [exact Hl |]. split; [exact Hr | exact Hrun].
Defined.

(** The hull of a square with its centre: the four corners, all of them
    input points. *)
Lemma merge_hull_vertices_from_input_witness :
  let pts := [mk_point 2 2; mk_point 0 0; mk_point 1 1; mk_point 2 0; mk_point 0 2] in
  let h := [mk_point 0 2; mk_point 0 0; mk_point 2 0; mk_point 2 2] in
  2 <= length pts /\ merge_hull 6 pts = Done h /\ forall p, In p h -> In p pts.
Proof.
  intros pts h.
  assert (H : 2 <= length pts) by (cbv; lia).
  assert (R : merge_hull 6 pts = Done h) by (vm_compute; reflexivity).
  split; [exact H |]. split; [exact R |].
  exact (@merge_hull_vertices_from_input 6 pts h H R).
Defined.

(* ================================================================== *)
(** ** The leftmost and rightmost locators *)
(* ================================================================== *)

Lemma succ_mod (n i : nat) :
  i < n -> (i + 1) mod n = if i + 1 =? n then 0 else i + 1.
Proof.
  intros H. destruct (Nat.eqb_spec (i + 1) n) as [E | E].
  - rewrite E. apply Nat.Div0.mod_same.
  - apply Nat.mod_small. lia.
Qed.

Lemma pred_mod (n i : nat) :
  i < n -> (i + n - 1) mod n = if i =? 0 then n - 1 else i - 1.
Proof.
  intros H. destruct (Nat.eqb_spec i 0) as [E | E].
  - subst i. apply Nat.mod_small. lia.
  - replace (i + n - 1) with (i - 1 + 1 * n) by lia.
    rewrite Nat.Div0.mod_add. apply Nat.mod_small. lia.
Qed.

Lemma inc_dec (c : contour_type) (k : contour_circulator) :
  over c k -> inc (dec k) = k.
Proof.
  destruct k as [c' i]. intros [Hc Hi]. simpl in *. subst c'.
  unfold inc, dec. simpl. f_equal.
  rewrite (pred_mod Hi).
  destruct (Nat.eqb_spec i 0); rewrite succ_mod by lia.
  - subst i. replace (length c - 1 + 1) with (length c) by lia.
    now rewrite Nat.eqb_refl.
  - destruct (Nat.eqb_spec (i - 1 + 1) (length c)); lia.
Qed.

Lemma dec_inc (c : contour_type) (k : contour_circulator) :
  over c k -> dec (inc k) = k.
Proof.
  destruct k as [c' i]. intros [Hc Hi]. simpl in *. subst c'.
  unfold inc, dec. simpl. f_equal.
  rewrite (succ_mod Hi).
  destruct (Nat.eqb_spec (i + 1) (length c)); rewrite pred_mod by lia.
  - simpl. lia.
  - destruct (Nat.eqb_spec (i + 1) 0); lia.
Qed.

Lemma over_eta (c : contour_type) (k : contour_circulator) :
  over c k -> k = mk_circulator c (itr_ k).
Proof. destruct k as [c' i]. intros [Hc _]. simpl in *. now subst. Qed.

(** On a state whose [prev] and [next] are the neighbours of [current], the
    loop test of the locators is the negation of [is_extreme]. *)
Lemma not_extreme_spec lt (c : contour_type) (k : contour_circulator) :
  over c k ->
  not_extreme lt (k, dec k, inc k) = Done (negb (is_extreme lt c (itr_ k))).
Proof.
  intros H. unfold not_extreme, is_extreme.
  destruct (deref_over H) as [p [-> [Ep _]]].
  destruct (deref_over (over_dec H)) as [q [-> [Eq _]]].
  destruct (deref_over (over_inc H)) as [r [-> [Er _]]].
  simpl in Eq, Er. rewrite (proj1 H) in Eq, Er. rewrite Ep, Eq, Er. simpl.
  destruct (lt p q); reflexivity.
Qed.

(** The locator loop stops at the first strict extreme met from the start. *)
Lemma locate_extreme lt (c : contour_type) :
  forall (d fuel : nat) (k : contour_circulator),
    over c k ->
    (forall e, e < d -> is_extreme lt c ((itr_ k + e) mod length c) = false) ->
    is_extreme lt c ((itr_ k + d) mod length c) = true ->
    d < fuel ->
    while fuel (not_extreme lt) step_locator (k, dec k, inc k) =
    Done (let k' := mk_circulator c ((itr_ k + d) mod length c) in
          (k', dec k', inc k')).
Proof.
  induction d as [| d IH]; intros fuel k Hk Hbefore Hat Hfuel;
    (destruct fuel as [| fuel]; [lia |]); rewrite while_S.
  - rewrite (not_extreme_spec lt Hk).
    rewrite Nat.add_0_r, Nat.mod_small in Hat by apply Hk.
    rewrite Hat. simpl.
    rewrite Nat.add_0_r, Nat.mod_small by apply Hk.
    now rewrite <- (over_eta Hk).
  - rewrite (not_extreme_spec lt Hk).
    pose proof (Hbefore 0 ltac:(lia)) as H0.
    rewrite Nat.add_0_r, Nat.mod_small in H0 by apply Hk.
    rewrite H0. simpl.
    rewrite (inc_dec Hk). rewrite <- (dec_inc Hk) at 2.
    assert (Hpos : forall e, (itr_ (inc k) + e) mod length c =
                             (itr_ k + S e) mod length c).
    { intros e. simpl. rewrite (proj1 Hk).
      rewrite Nat.Div0.add_mod_idemp_l. f_equal. lia. }
    rewrite (IH fuel (inc k)); [| apply over_inc; exact Hk | | | lia].
    + cbv zeta. now rewrite Hpos.
    + intros e He. rewrite Hpos. apply Hbefore; lia.
    + rewrite Hpos. exact Hat.
Qed.

Lemma first_true (f : nat -> bool) :
  forall m, f m = true ->
  exists d, d <= m /\ f d = true /\ forall e, e < d -> f e = false.
Proof.
  intros m. revert f. induction m as [| m IH]; intros f Hm.
  - exists 0. split; [lia |]. split; [exact Hm |]. intros e He. lia.
  - destruct (f 0) eqn:E0.
    + exists 0. split; [lia |]. split; [exact E0 |]. intros e He. lia.
    + destruct (IH (fun x => f (S x)) Hm) as [d [Hd [Hfd Hlt]]].
      exists (S d). split; [lia |]. split; [exact Hfd |].
      intros [| e] He; [exact E0 | apply Hlt; lia].
Qed.

Lemma offset_to (n i j : nat) :
  i < n -> j < n -> exists d, d < n /\ (i + d) mod n = j.
Proof.
  intros Hi Hj. destruct (Nat.le_gt_cases i j) as [Hle | Hgt].
  - exists (j - i). split; [lia |].
    replace (i + (j - i)) with j by lia. apply Nat.mod_small. exact Hj.
  - exists (j + n - i). split; [lia |].
    replace (i + (j + n - i)) with (j + 1 * n) by lia.
    rewrite Nat.Div0.mod_add. apply Nat.mod_small. exact Hj.
Qed.

Lemma circ_eqb_inc_false (c : contour_type) (k : contour_circulator) :
  over c k -> 2 <= length c -> circ_eqb k (inc k) = false.
Proof.
  intros [Hc Hi] Hn. unfold circ_eqb. simpl. rewrite Hc, (succ_mod Hi).
  apply Nat.eqb_neq. destruct (Nat.eqb_spec (itr_ k + 1) (length c)); lia.
Qed.

(** On a contour of one point the locators return at once. *)
Lemma set_extreme_single lt (fuel : nat) (c : contour_type) (k : contour_circulator) :
  over c k -> length c = 1 -> set_extreme lt fuel k = Done k.
Proof.
  intros [Hc Hi] Hn. unfold set_extreme, circ_eqb. simpl.
  rewrite Hc, Hn. assert (itr_ k = 0) as -> by lia. reflexivity.
Qed.

(** On a contour of two or more points with a strict extreme, the locators
    return the first strict extreme at or after the start. *)
Lemma set_extreme_finds lt (c : contour_type) (k : contour_circulator) :
  over c k -> 2 <= length c ->
  (exists j, j < length c /\ is_extreme lt c j = true) ->
  exists d, d < length c /\
    is_extreme lt c ((itr_ k + d) mod length c) = true /\
    (forall e, e < d -> is_extreme lt c ((itr_ k + e) mod length c) = false) /\
    forall fuel, d < fuel ->
      set_extreme lt fuel k = Done (mk_circulator c ((itr_ k + d) mod length c)).
Proof.
  intros Hk Hn [j [Hj Hext]].
  destruct (@offset_to (length c) (itr_ k) j (proj2 Hk) Hj) as [m [Hm Em]].
  destruct (@first_true (fun e => is_extreme lt c ((itr_ k + e) mod length c)) m)
    as [d [Hd [Hat Hbefore]]]; [now rewrite Em |].
  exists d. repeat split; auto; try lia.
  intros fuel Hfuel. unfold set_extreme.
  rewrite (circ_eqb_inc_false Hk Hn), andb_false_r.
  rewrite (@locate_extreme lt c d fuel k Hk Hbefore Hat Hfuel). reflexivity.
Qed.

(** On a contour of two or more points without a strict extreme, the locators
    never return. *)
Lemma set_extreme_diverges lt (fuel : nat) (c : contour_type) (k : contour_circulator) :
  over c k -> 2 <= length c ->
  (forall j, j < length c -> is_extreme lt c j = false) ->
  set_extreme lt fuel k = Timeout.
Proof.
  intros Hk Hn Hnone. unfold set_extreme.
  rewrite (circ_eqb_inc_false Hk Hn), andb_false_r.
  rewrite (@while_diverges locator_state
             (fun s => exists k', over c k' /\ s = (k', dec k', inc k'))).
  - reflexivity.
  - intros s [k' [Hk' ->]]. rewrite (not_extreme_spec lt Hk').
    rewrite Hnone; [reflexivity | apply Hk'].
  - intros s [k' [Hk' ->]]. eexists. split; [reflexivity |].
    exists (inc k'). split; [apply over_inc; exact Hk' |].
    simpl. rewrite (inc_dec Hk'). rewrite <- (dec_inc Hk') at 2. reflexivity.
  - exists k. split; [exact Hk | reflexivity].
Qed.

(** C7, as the spec states it, fails on a contour of two points: started on
    the larger point, [set_leftmost] moves the circulator to the smaller one
    instead of leaving it where it was. *)
Lemma set_leftmost_two_points_counterexample :
  let c := [mk_point 0 0; mk_point 1 0] in
  let k := mk_circulator c 1 in
  length c <= 2 /\ itr_ k < length c /\
  set_leftmost 2 k = Done (mk_circulator c 0) /\
  mk_circulator c 0 <> k.
Proof.
  cbv zeta. split; [simpl; lia |]. split; [simpl; lia |].
  split; [vm_compute; reflexivity | discriminate].
Qed.

(** C7, amended.  For a circulator at any position of a contour: on a contour
    of one point [set_leftmost] leaves the circulator unchanged; on a contour
    of two or more points that has a vertex strictly less than both of its
    circular neighbours, [set_leftmost] returns with the circulator on such a
    vertex, the first one met from the start in forward cyclic order. *)
Theorem set_leftmost_spec (c : contour_type) (i : nat) :
  i < length c ->
  let k := mk_circulator c i in
  (length c = 1 -> forall fuel, set_leftmost fuel k = Done k) /\
  (2 <= length c ->
   (exists j, j < length c /\ is_extreme point_lt c j = true) ->
   exists d, d < length c /\
     is_extreme point_lt c ((i + d) mod length c) = true /\
     (forall e, e < d -> is_extreme point_lt c ((i + e) mod length c) = false) /\
     forall fuel, d < fuel ->
       set_leftmost fuel k = Done (mk_circulator c ((i + d) mod length c))).
Proof.
  intros Hi k.
  assert (Hk : over c k) by (split; [reflexivity | exact Hi]).
  split.
  - intros Hn fuel. apply (@set_extreme_single point_lt fuel c k Hk Hn).
  - intros Hn Hex. exact (@set_extreme_finds point_lt c k Hk Hn Hex).
Qed.

(** On a contour of four points started at its first vertex, [set_leftmost]
    stops on a strict local minimum. *)
Lemma set_leftmost_spec_witness :
  let c := [mk_point 1 0; mk_point 2 3; mk_point 0 0; mk_point 2 (-3)] in
  0 < length c /\
  exists d, d < length c /\
    is_extreme point_lt c ((0 + d) mod length c) = true /\
    (forall e, e < d -> is_extreme point_lt c ((0 + e) mod length c) = false) /\
    forall fuel, d < fuel ->
      set_leftmost fuel (mk_circulator c 0) =
      Done (mk_circulator c ((0 + d) mod length c)).
Proof.
  intros c.
  assert (Hi : 0 < length c) by (simpl; lia).
  split; [exact Hi |].
  apply (proj2 (@set_leftmost_spec c 0 Hi)).
  - simpl; lia.
  - exists 2. split; [simpl; lia | reflexivity].
Defined.

(* ================================================================== *)
(** ** Inputs with repeated points *)
(* ================================================================== *)

Lemma no_extreme_two_equal lt (q : point_type) :
  lt q q = false ->
  forall j, j < length [q; q] -> is_extreme lt [q; q] j = false.
Proof.
  intros Hq [| [| j]] Hj; simpl in Hj; try lia;
    unfold is_extreme; simpl; now rewrite Hq.
Qed.

Lemma point_lt_irrefl (q : point_type) : point_lt q q = false.
Proof.
  unfold point_lt. rewrite !Z.ltb_irrefl, Z.eqb_refl. reflexivity.
Qed.

(** On a contour made of one point twice neither locator ever returns. *)
Lemma set_leftmost_two_equal (fuel : nat) (q : point_type) :
  set_leftmost fuel (circulator [q; q]) = Timeout.
Proof.
  apply set_extreme_diverges with (c := [q; q]).
  - apply over_circulator. discriminate.
  - simpl. lia.
  - apply no_extreme_two_equal, point_lt_irrefl.
Qed.

Lemma set_rightmost_two_equal (fuel : nat) (q : point_type) :
  set_rightmost fuel (circulator [q; q]) = Timeout.
Proof.
  apply set_extreme_diverges with (c := [q; q]).
  - apply over_circulator. discriminate.
  - simpl. lia.
  - apply no_extreme_two_equal. unfold point_gt. apply point_lt_irrefl.
Qed.

Lemma set_leftmost_single (fuel : nat) (p : point_type) :
  set_leftmost fuel (circulator [p]) = Done (circulator [p]).
Proof.
  apply set_extreme_single with (c := [p]); [| reflexivity].
  apply over_circulator. discriminate.
Qed.

(** C4 fails on the code.  On the three points (0,0), (1,1), (1,1)
    [merge_hull] never returns: whatever the fuel, the call runs out of it,
    inside [set_leftmost] on the right half (1,1), (1,1). *)
Theorem merge_hull_diverges_on_repeated_point :
  forall fuel,
    merge_hull fuel [mk_point 0 0; mk_point 1 1; mk_point 1 1] = Timeout.
Proof.
  intros fuel.
  apply merge_hull_Timeout_below with (fuel2 := S (S fuel)); [lia |].
  unfold merge_hull.
  change (length [mk_point 0 0; mk_point 1 1; mk_point 1 1] <? 2) with false.
  change (sort [mk_point 0 0; mk_point 1 1; mk_point 1 1])
    with [mk_point 0 0; mk_point 1 1; mk_point 1 1].
  cbv iota. rewrite merge_hull_impl_S.
  change (length [mk_point 0 0; mk_point 1 1; mk_point 1 1] <=? 2) with false.
  change (fst (split_range [mk_point 0 0; mk_point 1 1; mk_point 1 1]))
    with [mk_point 0 0].
  change (snd (split_range [mk_point 0 0; mk_point 1 1; mk_point 1 1]))
    with [mk_point 1 1; mk_point 1 1].
  cbv iota. rewrite !merge_hull_impl_S.
  change (bind (Done [mk_point 0 0])
            (fun left_contour =>
               bind (Done [mk_point 1 1; mk_point 1 1])
                 (fun right_contour => merge (S fuel) left_contour right_contour))
          = Timeout).
  unfold bind at 1 2. unfold merge.
  change (is_on_one_line2 [mk_point 0 0] [mk_point 1 1; mk_point 1 1]) with true.
  cbv iota. unfold build_oneline_contour.
  rewrite set_leftmost_single.
  unfold bind at 1. rewrite set_leftmost_two_equal. reflexivity.
Qed.

(** C9 fails on the code.  For the six points below [merge_hull] returns a
    contour of five vertices that holds (0,0) twice; given that contour as
    input, [merge_hull] never returns: the left half of the sorted sequence is
    (0,0), (0,0), on which [set_rightmost] runs for ever. *)
Theorem merge_hull_rehull_diverges :
  let pts := [mk_point 0 0; mk_point 0 0; mk_point 0 1; mk_point 0 2;
              mk_point 1 1; mk_point 2 1] in
  let h := [mk_point 0 1; mk_point 0 0; mk_point 0 0; mk_point 2 1; mk_point 0 2] in
  merge_hull 4 pts = Done h /\ forall fuel, merge_hull fuel h = Timeout.
Proof.
  intros pts h. split; [vm_compute; reflexivity |].
  intros fuel.
  apply merge_hull_Timeout_below with (fuel2 := S (S (S (S fuel)))); [lia |].
  unfold merge_hull.
  change (length h <? 2) with false.
  change (sort h)
    with [mk_point 0 0; mk_point 0 0; mk_point 0 1; mk_point 0 2; mk_point 2 1].
  cbv iota. rewrite merge_hull_impl_S.
  change (length [mk_point 0 0; mk_point 0 0; mk_point 0 1; mk_point 0 2;
                  mk_point 2 1] <=? 2) with false.
  change (fst (split_range [mk_point 0 0; mk_point 0 0; mk_point 0 1;
                            mk_point 0 2; mk_point 2 1]))
    with [mk_point 0 0; mk_point 0 0].
  change (snd (split_range [mk_point 0 0; mk_point 0 0; mk_point 0 1;
                            mk_point 0 2; mk_point 2 1]))
    with [mk_point 0 1; mk_point 0 2; mk_point 2 1].
  cbv iota.
  rewrite (@merge_hull_impl_mono 1 (S (S (S fuel)))
             [mk_point 0 0; mk_point 0 0] ltac:(lia)
             [mk_point 0 0; mk_point 0 0] eq_refl).
  rewrite (@merge_hull_impl_mono 3 (S (S (S fuel)))
             [mk_point 0 1; mk_point 0 2; mk_point 2 1] ltac:(lia)
             [mk_point 0 1; mk_point 2 1; mk_point 0 2] eq_refl).
  unfold bind at 1 2. unfold merge.
  change (is_on_one_line2 [mk_point 0 0; mk_point 0 0]
            [mk_point 0 1; mk_point 2 1; mk_point 0 2]) with false.
  cbv iota. rewrite set_rightmost_two_equal. reflexivity.
Qed.

(** C1 fails on the code.  For the four points (0,0), (0,1), (0,1), (1,0)
    [merge_hull] returns them in this order, a clockwise triangle: the input
    point (1,0) is to the right of the edge from (0,0) to (0,1), so the
    returned contour does not contain the input.  No other result is
    possible, whatever the fuel. *)
Theorem merge_hull_repeated_point_not_contained :
  let pts := [mk_point 0 0; mk_point 0 1; mk_point 0 1; mk_point 1 0] in
  let h := [mk_point 0 0; mk_point 0 1; mk_point 0 1; mk_point 1 0] in
  merge_hull 3 pts = Done h /\
  turn (mk_point 0 0) (mk_point 0 1) (mk_point 1 0) = RIGHT /\
  contains h pts = false /\
  forall fuel h', merge_hull fuel pts = Done h' -> contains h' pts = false.
Proof.
  intros pts h.
  assert (R : merge_hull 3 pts = Done h) by (vm_compute; reflexivity).
  repeat split; try (vm_compute; reflexivity).
  intros fuel h' H'.
  rewrite (@merge_hull_deterministic fuel 3 pts h' h H' R).
  vm_compute; reflexivity.
Qed.

(** C2 fails on the code.  The contour returned for (0,0), (0,1), (0,1),
    (1,0) turns [RIGHT] at the consecutive vertices (0,1), (1,0), (0,0), and
    its vertices are not all on one line. *)
Theorem merge_hull_repeated_point_right_turn :
  let pts := [mk_point 0 0; mk_point 0 1; mk_point 0 1; mk_point 1 0] in
  let h := [mk_point 0 0; mk_point 0 1; mk_point 0 1; mk_point 1 0] in
  merge_hull 3 pts = Done h /\
  In (mk_point 0 1, mk_point 1 0, mk_point 0 0) (corners h) /\
  turn (mk_point 0 1) (mk_point 1 0) (mk_point 0 0) = RIGHT /\
  no_right_turn h = false /\ all_collinear h = false /\
  forall fuel h', merge_hull fuel pts = Done h' -> convex_or_collinear h' = false.
Proof.
  intros pts h.
  assert (R : merge_hull 3 pts = Done h) by (vm_compute; reflexivity).
  repeat split; try (vm_compute; reflexivity).
  - vm_compute. auto.
  - intros fuel h' H'.
    rewrite (@merge_hull_deterministic fuel 3 pts h' h H' R).
    vm_compute; reflexivity.
Qed.

(* ================================================================== *)
(** ** The collinearity test of [merge] *)
(* ================================================================== *)

Lemma turn_eqb_eq (s t : turn_type) : turn_eqb s t = true <-> s = t.
Proof. destruct s, t; simpl; split; intros; congruence. Qed.

Lemma all_collinear_spec (l : list point_type) :
  all_collinear l = true <-> Collinear l.
Proof.
  unfold all_collinear, Collinear. rewrite forallb_forall. split.
  - intros H a b c Ha Hb Hc. specialize (H a Ha).
    rewrite forallb_forall in H. specialize (H b Hb).
    rewrite forallb_forall in H. apply turn_eqb_eq. auto.
  - intros H a Ha. apply forallb_forall. intros b Hb.
    apply forallb_forall. intros c Hc. apply turn_eqb_eq. auto.
Qed.

Lemma is_on_one_line_triples (c : contour_type) :
  is_on_one_line c = triples_collinear c.
Proof.
  unfold is_on_one_line, vertices_num.
  destruct c as [| p [| q [| r c]]]; reflexivity.
Qed.

Lemma is_on_one_line2_triples (A B : contour_type) :
  is_on_one_line2 A B = triples_collinear (A ++ B).
Proof.
  unfold is_on_one_line2, get_result, new_builder.
  rewrite !fold_add_point. simpl. apply is_on_one_line_triples.
Qed.

Lemma triples_collinear_cons (a b c : point_type) (l : list point_type) :
  triples_collinear (a :: b :: c :: l) =
  turn_eqb (turn a b c) COLLINEAR && triples_collinear (b :: c :: l).
Proof. simpl. destruct (turn_eqb (turn a b c) COLLINEAR); reflexivity. Qed.

(** The test accepts every collinear union. *)
Lemma is_on_one_line2_complete (A B : contour_type) :
  Collinear (A ++ B) -> is_on_one_line2 A B = true.
Proof.
  rewrite is_on_one_line2_triples. generalize (A ++ B). clear A B.
  intros l. induction l as [| a l IH]; intros H; [reflexivity |].
  destruct l as [| b [| c l]]; try reflexivity.
  rewrite triples_collinear_cons. apply andb_true_intro. split.
  - apply turn_eqb_eq. apply H; simpl; auto.
  - apply IH. intros x y z Hx Hy Hz. apply H; right; assumption.
Qed.

Lemma cross_parallel (ex ey ux uy vx vy : Z) :
  (ex <> 0 \/ ey <> 0)%Z ->
  (ex * uy - ey * ux = 0)%Z -> (ex * vy - ey * vx = 0)%Z ->
  (ux * vy - uy * vx = 0)%Z.
Proof.
  intros He Hu Hv.
  assert (Hx : (ex * (ux * vy - uy * vx) = 0)%Z).
  { replace (ex * (ux * vy - uy * vx))%Z
      with (ux * (ex * vy - ey * vx) - vx * (ex * uy - ey * ux))%Z by ring.
    rewrite Hu, Hv. ring. }
  assert (Hy : (ey * (ux * vy - uy * vx) = 0)%Z).
  { replace (ey * (ux * vy - uy * vx))%Z
      with (uy * (ex * vy - ey * vx) - vy * (ex * uy - ey * ux))%Z by ring.
    rewrite Hu, Hv. ring. }
  apply Z.mul_eq_0 in Hx, Hy. lia.
Qed.

Lemma point_eqb_false (a b : point_type) :
  point_eqb a b = false -> (px b - px a <> 0 \/ py b - py a <> 0)%Z.
Proof.
  unfold point_eqb. intros H. apply andb_false_iff in H.
  destruct H as [H | H]; apply Z.eqb_neq in H; lia.
Qed.

Lemma on_line_next (o : point_type) (d : vector_type) (a b c : point_type) :
  on_line o d a -> on_line o d b -> point_eqb a b = false ->
  turn a b c = COLLINEAR -> on_line o d c.
Proof.
  unfold on_line. rewrite turn_COLLINEAR_iff. unfold cross, point_sub. simpl.
  intros Ha Hb Hab Hc. apply point_eqb_false in Hab.
  assert (Hde : ((px b - px a) * vy d - (py b - py a) * vx d = 0)%Z) by lia.
  pose proof (@cross_parallel (px b - px a) (py b - py a) (vx d) (vy d)
                (px c - px a) (py c - py a) Hab Hde Hc) as Hw.
  lia.
Qed.

Lemma on_line_collinear (o : point_type) (d : vector_type) (a b c : point_type) :
  (vx d <> 0 \/ vy d <> 0)%Z ->
  on_line o d a -> on_line o d b -> on_line o d c -> turn a b c = COLLINEAR.
Proof.
  unfold on_line. rewrite turn_COLLINEAR_iff. unfold cross, point_sub. simpl.
  intros Hd Ha Hb Hc.
  assert (Hu : (vx d * (py b - py a) - vy d * (px b - px a) = 0)%Z) by lia.
  assert (Hv : (vx d * (py c - py a) - vy d * (px c - px a) = 0)%Z) by lia.
  exact (@cross_parallel (vx d) (vy d) (px b - px a) (py b - py a)
           (px c - px a) (py c - py a) Hd Hu Hv).
Qed.

Lemma on_line_chain (o : point_type) (d : vector_type) :
  forall (l : list point_type) (a b : point_type),
    on_line o d a -> on_line o d b ->
    no_repeated_neighbour (a :: b :: l) = true ->
    triples_collinear (a :: b :: l) = true ->
    forall x, In x l -> on_line o d x.
Proof.
  induction l as [| c l IH]; intros a b Ha Hb Hn Ht x Hx; [destruct Hx |].
  rewrite triples_collinear_cons in Ht. apply andb_prop in Ht.
  destruct Ht as [Habc Ht]. apply turn_eqb_eq in Habc.
  change (negb (point_eqb a b) && no_repeated_neighbour (b :: c :: l) = true) in Hn.
  apply andb_prop in Hn. destruct Hn as [Hab Hn].
  apply negb_true_iff in Hab.
  assert (Hc : on_line o d c) by exact (@on_line_next o d a b c Ha Hb Hab Habc).
  destruct Hx as [<- | Hx]; [exact Hc |].
  exact (IH b c Hb Hc Hn Ht x Hx).
Qed.

(** When no two neighbours of the sequence coincide, collinear consecutive
    triples make the whole sequence collinear. *)
Lemma triples_collinear_sound (l : list point_type) :
  no_repeated_neighbour l = true -> triples_collinear l = true -> Collinear l.
Proof.
  destruct l as [| p0 [| p1 l]]; intros Hn Ht.
  - intros a b c [].
  - intros a b c [<- | []] [<- | []] [<- | []].
    apply turn_COLLINEAR_iff. unfold cross, point_sub. simpl. ring.
  - pose proof Hn as Hn'.
    change (negb (point_eqb p0 p1) && no_repeated_neighbour (p1 :: l) = true) in Hn'.
    apply andb_prop in Hn'. destruct Hn' as [H01 _].
    apply negb_true_iff, point_eqb_false in H01.
    set (d := point_sub p1 p0).
    assert (H0 : on_line p0 d p0) by (unfold on_line, cross, point_sub; simpl; ring).
    assert (H1 : on_line p0 d p1) by (unfold on_line, cross, d, point_sub; simpl; ring).
    assert (Hall : forall x, In x (p0 :: p1 :: l) -> on_line p0 d x).
    { intros x [<- | [<- | Hx]]; auto.
      exact (@on_line_chain p0 d l p0 p1 H0 H1 Hn Ht x Hx). }
    intros a b c Ha Hb Hc.
    apply on_line_collinear with (o := p0) (d := d); auto.
Qed.

(** [merge] takes the one-line path exactly when the test holds. *)
Lemma merge_bypass (fuel : nat) (A B : contour_type) :
  is_on_one_line2 A B = true -> merge fuel A B = build_oneline_contour fuel A B.
Proof. intros H. unfold merge. now rewrite H. Qed.

(** C6 fails on the code.  For A = (0,0), (0,1) and B = (0,1), (1,0), the two
    halves that [merge_hull] makes of (0,0), (0,1), (0,1), (1,0), the test
    holds although (0,0), (0,1), (1,0) make a [RIGHT] turn: the repeated
    point makes both consecutive triples degenerate.  [merge] then takes the
    one-line path. *)
Theorem is_on_one_line_accepts_triangle :
  let A := [mk_point 0 0; mk_point 0 1] in
  let B := [mk_point 0 1; mk_point 1 0] in
  split_range (sort [mk_point 0 0; mk_point 0 1; mk_point 0 1; mk_point 1 0]) = (A, B) /\
  is_on_one_line2 A B = true /\
  turn (mk_point 0 0) (mk_point 0 1) (mk_point 1 0) = RIGHT /\
  all_collinear (A ++ B) = false /\
  (forall fuel, merge fuel A B = build_oneline_contour fuel A B).
Proof.
  intros A B. repeat split; try (vm_compute; reflexivity).
Qed.

(* ================================================================== *)
(** ** More on the orientation predicate and the tangent tests *)
(* ================================================================== *)

Lemma turn_rotate (a b c : point_type) : turn a b c = turn b c a.
Proof.
  destruct (turn_spec a b c) as [[H E] | [[H E] | [H E]]]; rewrite E; symmetry;
    [apply turn_RIGHT_iff | apply turn_COLLINEAR_iff | apply turn_LEFT_iff];
    unfold cross, point_sub in *; simpl in *; lia.
Qed.

Lemma turn_two_equal (a b : point_type) :
  turn a a b = COLLINEAR /\ turn a b a = COLLINEAR /\ turn a b b = COLLINEAR.
Proof.
  repeat split; apply turn_COLLINEAR_iff; unfold cross, point_sub; simpl; ring.
Qed.

(** X1.  [turn] does not change when its three arguments are rotated. *)
Theorem turn_cyclic (a b c : point_type) : turn a b c = turn b c a.
Proof. exact (turn_rotate a b c). Qed.

(** X2.  [turn] is [COLLINEAR] as soon as two of its arguments coincide. *)
Theorem turn_degenerate (a b : point_type) :
  turn a a b = COLLINEAR /\ turn a b a = COLLINEAR /\ turn a b b = COLLINEAR.
Proof. exact (turn_two_equal a b). Qed.

(** X3.  [turn] does not change when the three points are moved by one
    displacement. *)
Theorem turn_translate (a b c : point_type) (dx dy : Z) :
  let move p := mk_point (px p + dx) (py p + dy) in
  turn (move a) (move b) (move c) = turn a b c.
Proof.
  intros move.
  destruct (turn_spec a b c) as [[H E] | [[H E] | [H E]]]; rewrite E;
    [apply turn_RIGHT_iff | apply turn_COLLINEAR_iff | apply turn_LEFT_iff];
    unfold cross, point_sub, move in *; simpl in *; lia.
Qed.

Lemma turn_swap_first (a b c : point_type) :
  turn b a c = RIGHT <-> turn a b c = LEFT.
Proof.
  rewrite turn_LEFT_iff, turn_RIGHT_iff. unfold cross, point_sub. simpl. lia.
Qed.

Lemma is_tangent_true (p1 p2 p3 : point_type) :
  is_tangent p1 p2 p3 = true <-> turn p1 p2 p3 <> RIGHT.
Proof.
  unfold is_tangent. destruct (turn p1 p2 p3); simpl; split; intros;
    congruence.
Qed.

(** X4.  A contour that [is_tangent] accepts for the segment from [p1] to
    [p2] and for the reversed segment lies on the line through [p1] and [p2]:
    each of its vertices is collinear with them. *)
Theorem is_tangent_both_ways (p1 p2 : point_type) (contour : contour_type) :
  is_tangent_contour p1 p2 contour = true ->
  is_tangent_contour p2 p1 contour = true ->
  forall q, In q contour -> turn p1 p2 q = COLLINEAR.
Proof.
  unfold is_tangent_contour. rewrite !forallb_forall.
  intros H12 H21 q Hq. specialize (H12 q Hq). specialize (H21 q Hq).
  apply negb_true_iff in H12, H21.
  destruct (turn p1 p2 q) eqn:E; [reflexivity | | discriminate].
  apply turn_swap_first in E. rewrite E in H21. discriminate.
Qed.

Lemma is_tangent_both_ways_witness :
  turn (mk_point 0 0) (mk_point 2 2) (mk_point 1 1) = COLLINEAR /\
  turn (mk_point 0 0) (mk_point 2 2) (mk_point 3 3) = COLLINEAR.
Proof.
  pose proof (@is_tangent_both_ways (mk_point 0 0) (mk_point 2 2)
                [mk_point 1 1; mk_point 3 3] eq_refl eq_refl) as H.
  split; apply H; simpl; auto.
Defined.

(* ================================================================== *)
(** ** More on the locators and the tangent search *)
(* ================================================================== *)

(** X5.  [set_rightmost] on a contour of one point leaves the circulator
    unchanged; on a contour of two or more points that has a vertex strictly
    greater than both of its circular neighbours it returns with the
    circulator on the first such vertex met from the start, going forward. *)
Theorem set_rightmost_spec (c : contour_type) (i : nat) :
  i < length c ->
  let k := mk_circulator c i in
  (length c = 1 -> forall fuel, set_rightmost fuel k = Done k) /\
  (2 <= length c ->
   (exists j, j < length c /\ is_extreme point_gt c j = true) ->
   exists d, d < length c /\
     is_extreme point_gt c ((i + d) mod length c) = true /\
     (forall e, e < d -> is_extreme point_gt c ((i + e) mod length c) = false) /\
     forall fuel, d < fuel ->
       set_rightmost fuel k = Done (mk_circulator c ((i + d) mod length c))).
Proof.
  intros Hi k.
  assert (Hk : over c k) by (split; [reflexivity | exact Hi]).
  split.
  - intros Hn fuel. apply (@set_extreme_single point_gt fuel c k Hk Hn).
  - intros Hn Hex. exact (@set_extreme_finds point_gt c k Hk Hn Hex).
Qed.

Lemma set_rightmost_spec_witness :
  let c := [mk_point 1 0; mk_point 2 3; mk_point 0 0; mk_point 2 (-3)] in
  0 < length c /\
  exists d, d < length c /\
    is_extreme point_gt c ((0 + d) mod length c) = true /\
    (forall e, e < d -> is_extreme point_gt c ((0 + e) mod length c) = false) /\
    forall fuel, d < fuel ->
      set_rightmost fuel (mk_circulator c 0) =
      Done (mk_circulator c ((0 + d) mod length c)).
Proof.
  intros c.
  assert (Hi : 0 < length c) by (simpl; lia).
  split; [exact Hi |].
  apply (proj2 (@set_rightmost_spec c 0 Hi)).
  - simpl; lia.
  - exists 1. split; [simpl; lia | reflexivity].
Defined.

Lemma set_extreme_returns_iff lt (c : contour_type) (k : contour_circulator) :
  over c k ->
  (exists fuel k', set_extreme lt fuel k = Done k') <->
  (length c = 1 \/ exists j, j < length c /\ is_extreme lt c j = true).
Proof.
  intros Hk. split.
  - intros [fuel [k' Hrun]].
    destruct (Nat.eq_dec (length c) 1) as [E1 | N1]; [left; exact E1 | right].
    assert (Hn : 2 <= length c) by (pose proof (over_nonempty Hk); lia).
    destruct (existsb (is_extreme lt c) (seq 0 (length c))) eqn:Ex.
    + apply existsb_exists in Ex. destruct Ex as [j [Hj Hext]].
      apply in_seq in Hj. exists j. split; [lia | exact Hext].
    + rewrite (@set_extreme_diverges lt fuel c k Hk Hn) in Hrun; [discriminate |].
      intros j Hj. destruct (is_extreme lt c j) eqn:E; [| reflexivity].
      assert (Hin : In j (seq 0 (length c))) by (apply in_seq; lia).
      assert (Ht : existsb (is_extreme lt c) (seq 0 (length c)) = true)
        by (apply existsb_exists; eauto).
      congruence.
  - intros [E1 | Hex].
    + exists 0, k. apply (@set_extreme_single lt 0 c k Hk E1).
    + destruct (Nat.eq_dec (length c) 1) as [E1 | N1].
      * exists 0, k. apply (@set_extreme_single lt 0 c k Hk E1).
      * assert (Hn : 2 <= length c) by (pose proof (over_nonempty Hk); lia).
        destruct (@set_extreme_finds lt c k Hk Hn Hex) as [d [_ [_ [_ Hrun]]]].
        exists (S d). eexists. apply Hrun. lia.
Qed.

(** X6.  From any position of a contour, [set_leftmost] returns exactly when
    the contour has one point or has a vertex strictly less than both of its
    circular neighbours; [set_rightmost] returns exactly when the contour has
    one point or has a vertex strictly greater than both of them.  Otherwise
    the loop never ends. *)
Theorem locators_return_iff (c : contour_type) (i : nat) :
  i < length c ->
  let k := mk_circulator c i in
  ((exists fuel k', set_leftmost fuel k = Done k') <->
   (length c = 1 \/ exists j, j < length c /\ is_extreme point_lt c j = true)) /\
  ((exists fuel k', set_rightmost fuel k = Done k') <->
   (length c = 1 \/ exists j, j < length c /\ is_extreme point_gt c j = true)).
Proof.
  intros Hi k.
  assert (Hk : over c k) by (split; [reflexivity | exact Hi]).
  split; apply set_extreme_returns_iff; exact Hk.
Qed.

Lemma locators_return_iff_witness :
  let c := [mk_point 1 1; mk_point 1 1; mk_point 1 1] in
  ~ (exists fuel k', set_leftmost fuel (mk_circulator c 0) = Done k') /\
  ~ (exists fuel k', set_rightmost fuel (mk_circulator c 0) = Done k').
Proof.
  intros c.
  assert (Hi : 0 < length c) by (simpl; lia).
  destruct (@locators_return_iff c 0 Hi) as [[Hl _] [Hr _]].
  split; intros H; [apply Hl in H | apply Hr in H];
    (destruct H as [H | [j [Hj H]]]; [discriminate |]);
    (destruct j as [| [| [| j]]]; [discriminate .. | simpl in Hj; lia]).
Defined.

Lemma find_tangent_post (fuel : nat) (A B : contour_type) (s s' : tangent_state) :
  tangent_inv A B s -> find_tangent fuel s = Done s' ->
  tangent_inv A B s' /\
  not_tangent_prev s' = Done false /\ not_tangent_next s' = Done false.
Proof.
  intros Hs Hrun. unfold find_tangent in Hrun.
  match type of Hrun with
  | while _ ?cond ?body _ = _ =>
      assert (Hw : safe (fun s' => tangent_inv A B s' /\ cond s' = Done false)
                     (while fuel cond body s))
  end.
  { apply (safe_while (tangent_inv A B)); [| | exact Hs].
    - intros s0 H0. eapply safe_bind; [eapply safe_not_tangent_prev; eauto |].
      intros [|] _; [exact I | eapply safe_not_tangent_next; eauto].
    - intros s0 H0 _. eapply safe_bind.
      + apply (safe_while (tangent_inv A B)); [| | exact H0].
        * intros; eapply safe_not_tangent_prev; eauto.
        * intros [a b] [Ha Hb] _. split; simpl in *; auto with hull.
      + intros s1 [H1 _].
        eapply safe_weaken; [| apply (safe_while (tangent_inv A B)); [| | exact H1]].
        * intros s2 [H _]. exact H.
        * intros; eapply safe_not_tangent_next; eauto.
        * intros [a b] [Ha Hb] _. split; simpl in *; auto with hull. }
  rewrite Hrun in Hw. simpl in Hw. destruct Hw as [Hinv Hc].
  split; [exact Hinv |].
  destruct (not_tangent_prev s') as [[|] | | |]; simpl in Hc; try discriminate.
  split; [reflexivity | exact Hc].
Qed.

(** X7.  When [find_tangent] returns, both circulators are still on their
    contours and the two tests of its loop hold: the predecessor of the first
    vertex and the successor of the second one make no [RIGHT] turn with the
    segment from the first vertex to the second. *)
Theorem find_tangent_locally_tangent (fuel : nat) (A B : contour_type)
  (a b a' b' : contour_circulator) :
  over A a -> over B b ->
  find_tangent fuel (a, b) = Done (a', b') ->
  over A a' /\ over B b' /\
  exists p q r t,
    deref a' = Done p /\ deref b' = Done q /\
    prev a' = Done r /\ next b' = Done t /\
    is_tangent p q r = true /\ is_tangent p q t = true.
Proof.
  intros Ha Hb Hrun.
  destruct (@find_tangent_post fuel A B (a, b) (a', b')) as [[Ha' Hb'] [Hp Hn]];
    [split; assumption | exact Hrun |].
  simpl in Ha', Hb'. split; [exact Ha' |]. split; [exact Hb' |].
  unfold not_tangent_prev, not_tangent_next, prev, next in *.
  destruct (deref_over Ha') as [p [Ep _]]. destruct (deref_over Hb') as [q [Eq _]].
  destruct (deref_over (over_dec Ha')) as [r [Er _]].
  destruct (deref_over (over_inc Hb')) as [t [Et _]].
  rewrite Ep, Eq, Er in Hp. rewrite Ep, Eq, Et in Hn. simpl in Hp, Hn.
  exists p, q, r, t. repeat split; auto.
  - injection Hp as Hp. now apply negb_false_iff in Hp.
  - injection Hn as Hn. now apply negb_false_iff in Hn.
Qed.

Lemma find_tangent_locally_tangent_witness :
  let A := [mk_point 1 1; mk_point 2 1] in
  let B := [mk_point 0 2] in
  exists p q r t,
    deref (mk_circulator A 1) = Done p /\ deref (mk_circulator B 0) = Done q /\
    prev (mk_circulator A 1) = Done r /\ next (mk_circulator B 0) = Done t /\
    is_tangent p q r = true /\ is_tangent p q t = true.
Proof.
  intros A B.
  assert (Ha : over A (circulator A)) by (apply over_circulator; discriminate).
  assert (Hb : over B (circulator B)) by (apply over_circulator; discriminate).
  assert (Hrun : find_tangent 3 (circulator A, circulator B) =
                 Done (mk_circulator A 1, mk_circulator B 0))
    by (vm_compute; reflexivity).
  exact (proj2 (proj2 (@find_tangent_locally_tangent 3 A B _ _ _ _ Ha Hb Hrun))).
Defined.

(** X8.  The collinearity tests accept every collinear input: a contour, or
    the union of two contours, whose points are all collinear passes
    [is_on_one_line], and [merge] then builds the one-line contour. *)
Theorem is_on_one_line_accepts_collinear (A B : contour_type) :
  Collinear (A ++ B) ->
  is_on_one_line A = true /\ is_on_one_line B = true /\
  is_on_one_line2 A B = true /\
  forall fuel, merge fuel A B = build_oneline_contour fuel A B.
Proof.
  intros H.
  assert (HA : Collinear (A ++ [])).
  { rewrite app_nil_r. intros a b c Ha Hb Hc. apply H; apply in_or_app; auto. }
  assert (HB : Collinear (B ++ [])).
  { rewrite app_nil_r. intros a b c Ha Hb Hc. apply H; apply in_or_app; auto. }
  apply is_on_one_line2_complete in HA, HB.
  rewrite is_on_one_line2_triples, app_nil_r, <- is_on_one_line_triples in HA, HB.
  pose proof (is_on_one_line2_complete A B H) as HAB.
  repeat split; auto. intros fuel. now apply merge_bypass.
Qed.

Lemma is_on_one_line_accepts_collinear_witness :
  let A := [mk_point 0 0; mk_point 1 2] in
  let B := [mk_point 2 4; mk_point 5 10] in
  is_on_one_line2 A B = true.
Proof.
  intros A B.
  refine (proj1 (proj2 (proj2 (@is_on_one_line_accepts_collinear A B _)))).
  apply all_collinear_spec. reflexivity.
Defined.

(** X9.  When no point of the concatenation of [A] and [B] is followed by an
    equal point, [is_on_one_line(A, B)] holds exactly when all the points of
    [A] and [B] are collinear. *)
Theorem is_on_one_line_exact (A B : contour_type) :
  no_repeated_neighbour (A ++ B) = true ->
  (is_on_one_line2 A B = true <-> Collinear (A ++ B)).
Proof.
  intros Hn. split.
  - rewrite is_on_one_line2_triples. now apply triples_collinear_sound.
  - apply is_on_one_line2_complete.
Qed.

Lemma is_on_one_line_exact_witness :
  let A := [mk_point 0 0; mk_point 0 1] in
  let B := [mk_point 1 0; mk_point 1 1] in
  is_on_one_line2 A B = true <-> Collinear (A ++ B).
Proof.
  intros A B. exact (@is_on_one_line_exact A B eq_refl).
Defined.

(* ================================================================== *)
(** ** The boundary walks *)
(* ================================================================== *)

Lemma add_mod_lt (n k d : nat) :
  k < n -> d < n ->
  (k + d) mod n = if k + d <? n then k + d else k + d - n.
Proof.
  intros Hk Hd. destruct (Nat.ltb_spec (k + d) n).
  - apply Nat.mod_small. lia.
  - replace (k + d) with (k + d - n + 1 * n) at 1 by lia.
    rewrite Nat.Div0.mod_add. apply Nat.mod_small. lia.
Qed.

Lemma back_mod (n i d : nat) :
  i < n -> d <= n ->
  (i + d * (n - 1)) mod n = if d <=? i then i - d else i + n - d.
Proof.
  intros Hi Hd. destruct (Nat.leb_spec d i).
  - replace (i + d * (n - 1)) with (i - d + d * n) by nia.
    rewrite Nat.Div0.mod_add. apply Nat.mod_small. lia.
  - replace (i + d * (n - 1)) with (i + n - d + (d - 1) * n) by nia.
    rewrite Nat.Div0.mod_add. apply Nat.mod_small. lia.
Qed.

Lemma vertex_nth_error (c : contour_type) (j : nat) (p : point_type) :
  nth_error c j = Some p -> vertex c j = p.
Proof.
  intros H. unfold vertex.
  assert (Hj : j < length c) by (apply nth_error_Some; congruence).
  rewrite Nat.mod_small by exact Hj. now apply nth_error_nth.
Qed.

Lemma vertex_mod (c : contour_type) (j : nat) :
  vertex c (j mod length c) = vertex c j.
Proof. unfold vertex. now rewrite Nat.Div0.mod_mod. Qed.

Lemma arc_S (c : contour_type) (s i d : nat) :
  arc c s i (S d) = arc c s i d ++ [vertex c (i + d * s)].
Proof. unfold arc. rewrite seq_S, map_app. reflexivity. Qed.

Lemma arc_cons (c : contour_type) (s i d : nat) :
  arc c s i (S d) = vertex c i :: arc c s ((i + s) mod length c) d.
Proof.
  unfold arc. rewrite <- cons_seq, <- seq_shift. cbn [map].
  rewrite map_map, Nat.mul_0_l, Nat.add_0_r. f_equal. apply map_ext. intros e.
  unfold vertex. f_equal.
  rewrite Nat.Div0.add_mod_idemp_l. f_equal. lia.
Qed.

Lemma arc_length (c : contour_type) (s i d : nat) : length (arc c s i d) = d.
Proof. unfold arc. now rewrite length_map, length_seq. Qed.

Lemma arc_incl (c : contour_type) (s i d : nat) :
  c <> [] -> incl (arc c s i d) c.
Proof.
  intros Hc q Hq. unfold arc in Hq. apply in_map_iff in Hq.
  destruct Hq as [e [<- _]]. unfold vertex. apply nth_In.
  apply Nat.mod_upper_bound. destruct c; [contradiction | discriminate].
Qed.

Lemma walk_S step (fuel : nat) (builder : contour_builder_type)
  (beg end_ : contour_circulator) :
  walk step (S fuel) builder beg end_ =
  if circ_eqb beg end_ then Done (builder, beg)
  else p <- deref beg ;; walk step fuel (add_point builder p) (step beg) end_.
Proof.
  unfold walk. rewrite while_S. simpl.
  destruct (circ_eqb beg end_); simpl; [reflexivity |].
  destruct (deref beg); reflexivity.
Qed.

(** A walk in steps of [s] positions returns when it first meets [end_], with
    the vertices it passed added to the builder. *)
Lemma walk_exact (c : contour_type) (s : nat) step :
  (forall k, over c k -> step k = mk_circulator c ((itr_ k + s) mod length c)) ->
  forall (d fuel : nat) (builder : contour_builder_type)
         (beg end_ : contour_circulator),
    over c beg -> over c end_ ->
    (forall e, e < d -> (itr_ beg + e * s) mod length c <> itr_ end_) ->
    (itr_ beg + d * s) mod length c = itr_ end_ ->
    d < fuel ->
    walk step fuel builder beg end_ =
    Done (builder ++ arc c s (itr_ beg) d, end_).
Proof.
  intros Hstep. induction d as [| d IH];
    intros fuel builder beg end_ Hb He Hbefore Hat Hfuel;
    (destruct fuel as [| fuel]; [lia |]); rewrite walk_S; unfold circ_eqb.
  - simpl in Hat. rewrite Nat.add_0_r, Nat.mod_small in Hat by apply Hb.
    rewrite Hat, Nat.eqb_refl. unfold arc. simpl. rewrite app_nil_r.
    rewrite (over_eta Hb), (over_eta He), Hat. reflexivity.
  - pose proof (Hbefore 0 ltac:(lia)) as H0. simpl in H0.
    rewrite Nat.add_0_r, Nat.mod_small in H0 by apply Hb.
    apply Nat.eqb_neq in H0. rewrite H0.
    destruct (deref_over Hb) as [p [-> [Ep _]]]. simpl.
    assert (Hk1 : over c (step beg)).
    { rewrite (Hstep beg Hb). split; [reflexivity |]. simpl.
      apply Nat.mod_upper_bound. eapply over_nonempty; eauto. }
    assert (Hpos : forall e, (itr_ (step beg) + e * s) mod length c =
                             (itr_ beg + S e * s) mod length c).
    { intros e. rewrite (Hstep beg Hb). simpl.
      rewrite Nat.Div0.add_mod_idemp_l. f_equal. lia. }
    rewrite (IH fuel (add_point builder p) (step beg) end_ Hk1 He);
      [| | | lia].
    + rewrite arc_cons. rewrite (vertex_nth_error _ _ Ep).
      rewrite (Hstep beg Hb). simpl. unfold add_point.
      now rewrite <- app_assoc.
    + intros e He'. rewrite Hpos. apply Hbefore; lia.
    + rewrite Hpos. exact Hat.
Qed.

Lemma first_hit (n s i j m : nat) :
  (i + m * s) mod n = j ->
  exists d, d <= m /\ (i + d * s) mod n = j /\
            forall e, e < d -> (i + e * s) mod n <> j.
Proof.
  intros Hm.
  destruct (@first_true (fun e => (i + e * s) mod n =? j) m) as [d [Hd [Hat Hb]]].
  - now apply Nat.eqb_eq.
  - exists d. split; [exact Hd |]. split; [now apply Nat.eqb_eq |].
    intros e He. apply Nat.eqb_neq. now apply Hb.
Qed.

Lemma inc_stride (c : contour_type) (k : contour_circulator) :
  over c k -> inc k = mk_circulator c ((itr_ k + 1) mod length c).
Proof. intros [Hc _]. unfold inc. now rewrite Hc. Qed.

Lemma dec_stride (c : contour_type) (k : contour_circulator) :
  over c k -> dec k = mk_circulator c ((itr_ k + (length c - 1)) mod length c).
Proof.
  intros [Hc Hi]. unfold dec. rewrite Hc. do 2 f_equal. lia.
Qed.

Lemma hit_forward (n i j : nat) :
  i < n -> j < n ->
  exists d, d < n /\ (i + d * 1) mod n = j /\
            forall e, e < d -> (i + e * 1) mod n <> j.
Proof.
  intros Hi Hj. destruct (@offset_to n i j Hi Hj) as [m [Hm Em]].
  destruct (@first_hit n 1 i j m) as [d [Hd H]];
    [now rewrite Nat.mul_1_r | exists d; split; [lia | exact H]].
Qed.

Lemma hit_backward (n i j : nat) :
  i < n -> j < n ->
  exists d, d < n /\ (i + d * (n - 1)) mod n = j /\
            forall e, e < d -> (i + e * (n - 1)) mod n <> j.
Proof.
  intros Hi Hj.
  set (m := if j <=? i then i - j else i + n - j).
  assert (Hm : m < n) by (unfold m; destruct (Nat.leb_spec j i); lia).
  destruct (@first_hit n (n - 1) i j m) as [d [Hd H]].
  - rewrite back_mod by lia. unfold m.
    destruct (Nat.leb_spec j i);
      match goal with
      | |- context [?a <=? ?b] => destruct (Nat.leb_spec a b)
      end; lia.
  - exists d. split; [lia | exact H].
Qed.

Lemma finish_walk (c : contour_type) (s i d : nat)
  (builder : contour_builder_type) (end_ : contour_circulator) :
  over c end_ -> (i + d * s) mod length c = itr_ end_ ->
  (p <- deref end_ ;; Done (add_point (builder ++ arc c s i d) p)) =
  Done (builder ++ arc c s i (S d)).
Proof.
  intros He Hat. destruct (deref_over He) as [p [-> [Ep _]]]. simpl.
  rewrite arc_S, <- vertex_mod, Hat, (vertex_nth_error _ _ Ep).
  unfold add_point. now rewrite app_assoc.
Qed.

Lemma add_contour_to_builder_run (c : contour_type)
  (beg end_ : contour_circulator) :
  over c beg -> over c end_ ->
  let s := if is_on_one_line c && circ_eqb (inc beg) end_
           then length c - 1 else 1 in
  exists d, d < length c /\
    (itr_ beg + d * s) mod length c = itr_ end_ /\
    (forall e, e < d -> (itr_ beg + e * s) mod length c <> itr_ end_) /\
    forall fuel builder, d < fuel ->
      add_contour_to_builder fuel builder c beg end_ =
      Done (builder ++ arc c s (itr_ beg) (S d)).
Proof.
  intros Hb He s.
  unfold add_contour_to_builder, add_oneline_contour_to_builder,
    add_convex_contour_to_builder.
  destruct (is_on_one_line c); simpl in s;
    [destruct (circ_eqb (inc beg) end_); simpl in s |]; subst s.
  - destruct (@hit_backward (length c) (itr_ beg) (itr_ end_) (proj2 Hb) (proj2 He))
      as [d [Hd [Hat Hbefore]]].
    exists d. repeat split; auto. intros fuel builder Hfuel.
    rewrite (dec_inc Hb).
    rewrite (@walk_exact c (length c - 1) dec (@dec_stride c)
               d fuel builder beg end_ Hb He Hbefore Hat Hfuel).
    simpl. now apply finish_walk.
  - destruct (@hit_forward (length c) (itr_ beg) (itr_ end_) (proj2 Hb) (proj2 He))
      as [d [Hd [Hat Hbefore]]].
    exists d. repeat split; auto. intros fuel builder Hfuel.
    rewrite (dec_inc Hb).
    rewrite (@walk_exact c 1 inc (@inc_stride c)
               d fuel builder beg end_ Hb He Hbefore Hat Hfuel).
    simpl. now apply finish_walk.
  - destruct (@hit_forward (length c) (itr_ beg) (itr_ end_) (proj2 Hb) (proj2 He))
      as [d [Hd [Hat Hbefore]]].
    exists d. repeat split; auto. intros fuel builder Hfuel.
    rewrite (@walk_exact c 1 inc (@inc_stride c)
               d fuel builder beg end_ Hb He Hbefore Hat Hfuel).
    simpl. now apply finish_walk.
Qed.



(** X11.  When [beg] and [end_] stand on the same vertex,
    [add_contour_to_builder] appends that vertex once and nothing else,
    whatever the contour. *)
Theorem add_contour_to_builder_single (fuel : nat)
  (builder : contour_builder_type) (c : contour_type) (k : contour_circulator) :
  over c k -> 0 < fuel ->
  add_contour_to_builder fuel builder c k k = Done (builder ++ [vertex c (itr_ k)]).
Proof.
  intros Hk Hfuel.
  destruct (@add_contour_to_builder_run c k k Hk Hk) as [d [_ [_ [Hbefore Hrun]]]].
  destruct d as [| d].
  - rewrite (Hrun fuel builder Hfuel). unfold arc. simpl.
    now rewrite Nat.add_0_r.
  - exfalso. apply (Hbefore 0); [lia |]. simpl.
    rewrite Nat.add_0_r. apply Nat.mod_small. apply Hk.
Qed.

Lemma add_contour_to_builder_single_witness :
  let c := [mk_point 0 0; mk_point 1 0; mk_point 2 0] in
  add_contour_to_builder 1 [] c (mk_circulator c 2) (mk_circulator c 2) =
  Done [mk_point 2 0].
Proof.
  intros c.
  assert (Hk : over c (mk_circulator c 2)) by (split; [reflexivity | simpl; lia]).
  exact (@add_contour_to_builder_single 1 [] c _ Hk ltac:(lia)).
Defined.

Lemma arc_full_rotation (c : contour_type) (k : nat) :
  k < length c -> arc c 1 k (length c) = skipn k c ++ firstn k c.
Proof.
  intros Hk. apply nth_error_ext. intros e. unfold arc.
  rewrite nth_error_map, nth_error_seq.
  destruct (Nat.ltb_spec e (length c)) as [He | He]; simpl.
  - unfold vertex. rewrite Nat.mul_1_r, (add_mod_lt Hk He).
    destruct (Nat.ltb_spec (k + e) (length c)) as [Hlt | Hge].
    + rewrite nth_error_app1 by (rewrite length_skipn; lia).
      rewrite nth_error_skipn. symmetry. now apply nth_error_nth'.
    + rewrite nth_error_app2 by (rewrite length_skipn; lia).
      rewrite length_skipn, nth_error_firstn.
      replace (e - (length c - k)) with (k + e - length c) by lia.
      destruct (Nat.ltb_spec (k + e - length c) k); [| lia].
      symmetry. apply nth_error_nth'. lia.
  - symmetry. apply nth_error_None.
    rewrite length_app, length_skipn, length_firstn. lia.
Qed.

Lemma rotation_perm (c : contour_type) (k : nat) :
  Permutation (skipn k c ++ firstn k c) c.
Proof.
  rewrite Permutation_app_comm. now rewrite firstn_skipn.
Qed.

Lemma bind_Done_safe {A B : Type} (Q : A -> Prop)
  (m : outcome A) (k : A -> outcome B) (b : B) :
  safe Q m -> bind m k = Done b -> exists a, Q a /\ m = Done a /\ k a = Done b.
Proof.
  intros Hs H. destruct m; simpl in *; try discriminate. eauto.
Qed.

(** Whatever the fuel, a forward walk that returns has added the vertices
    from [beg] up to the one before [end_]. *)
Lemma walk_inc_returns (fuel : nat) (c : contour_type)
  (builder : contour_builder_type) (beg end_ : contour_circulator)
  (r : walk_state) :
  over c beg -> over c end_ ->
  walk inc fuel builder beg end_ = Done r ->
  exists d, d < length c /\ (itr_ beg + d) mod length c = itr_ end_ /\
            fst r = builder ++ arc c 1 (itr_ beg) d.
Proof.
  intros Hb He Hrun.
  destruct (@hit_forward (length c) (itr_ beg) (itr_ end_) (proj2 Hb) (proj2 He))
    as [d [Hd [Hat Hbefore]]].
  exists d. split; [exact Hd |]. split; [now rewrite Nat.mul_1_r in Hat |].
  assert (Hle : fuel <= Nat.max fuel (S d)) by lia.
  assert (Hlt : d < Nat.max fuel (S d)) by lia.
  apply (@walk_mono fuel (Nat.max fuel (S d)) Hle) in Hrun.
  rewrite (@walk_exact c 1 inc (@inc_stride c) d _ builder beg end_
             Hb He Hbefore Hat Hlt) in Hrun.
  injection Hrun as <-. reflexivity.
Qed.

(** The walk of [build_oneline_contour] over one contour, from a position
    round to the one before it, gives the contour rotated to that position. *)
Lemma full_turn (fuel : nat) (c : contour_type)
  (builder : contour_builder_type) (k : contour_circulator) (r : walk_state) :
  over c k ->
  walk inc fuel builder k (dec k) = Done r ->
  (p <- deref (dec k) ;; Done (add_point (fst r) p)) =
  Done (builder ++ skipn (itr_ k) c ++ firstn (itr_ k) c).
Proof.
  intros Hk Hrun.
  destruct (@walk_inc_returns fuel c builder k (dec k) r Hk (over_dec Hk) Hrun)
    as [d [Hd [Hat ->]]].
  assert (Hd' : S d = length c).
  { rewrite (dec_stride Hk) in Hat. simpl in Hat.
    pose proof (proj2 Hk) as Hi.
    rewrite !add_mod_lt in Hat by lia.
    destruct (Nat.ltb_spec (itr_ k + d) (length c));
      destruct (Nat.ltb_spec (itr_ k + (length c - 1)) (length c)); lia. }
  rewrite (@finish_walk c 1 (itr_ k) d builder (dec k) (over_dec Hk));
    [| now rewrite Nat.mul_1_r].
  rewrite Hd', arc_full_rotation by apply Hk. reflexivity.
Qed.

Lemma full_turn_point (fuel : nat) (c : contour_type)
  (builder : contour_builder_type) (k : contour_circulator) (r : walk_state) :
  over c k ->
  walk inc fuel builder k (dec k) = Done r ->
  exists p, deref (dec k) = Done p /\
            add_point (fst r) p = builder ++ skipn (itr_ k) c ++ firstn (itr_ k) c.
Proof.
  intros Hk Hrun. pose proof (@full_turn fuel c builder k r Hk Hrun) as H.
  destruct (deref_over (over_dec Hk)) as [p [Ep _]]. rewrite Ep in H.
  simpl in H. injection H as H. eauto.
Qed.

Lemma build_oneline_contour_rotations (fuel : nat) (A B C : contour_type) :
  A <> [] -> B <> [] ->
  build_oneline_contour fuel A B = Done C ->
  exists i j, i < length A /\ j < length B /\
    C = (skipn i A ++ firstn i A) ++ (skipn j B ++ firstn j B).
Proof.
  intros HA HB Hrun. unfold build_oneline_contour in Hrun.
  apply (@bind_Done_safe _ _ _ _ _ _ (@safe_set_extreme point_lt fuel A (circulator A)
                           (over_circulator HA))) in Hrun.
  destruct Hrun as [a [Ha [_ Hrun]]].
  apply (@bind_Done_safe _ _ _ _ _ _ (@safe_set_extreme point_lt fuel B (circulator B)
                           (over_circulator HB))) in Hrun.
  destruct Hrun as [b [Hb [_ Hrun]]].
  apply bind_Done in Hrun. destruct Hrun as [[b1 k1] [Hw1 Hrun]].
  destruct (@full_turn_point fuel A new_builder a (b1, k1) Ha Hw1) as [p [Ep E1]].
  rewrite Ep in Hrun. simpl in Hrun, E1. rewrite E1 in Hrun.
  apply bind_Done in Hrun. destruct Hrun as [[b2 k2] [Hw2 Hrun]].
  destruct (@full_turn_point fuel B _ b (b2, k2) Hb Hw2) as [q [Eq E2]].
  rewrite Eq in Hrun. simpl in Hrun, E2. rewrite E2 in Hrun.
  injection Hrun as <-.
  exists (itr_ a), (itr_ b). split; [apply Ha |]. split; [apply Hb |].
  reflexivity.
Qed.

(** X12.  The contour that [build_oneline_contour] returns is contour [A]
    rotated to start at some position, followed by contour [B] rotated to
    start at some position: it keeps every point of both, repeated points
    included. *)
Theorem build_oneline_contour_keeps_points (fuel : nat) (A B C : contour_type) :
  A <> [] -> B <> [] ->
  build_oneline_contour fuel A B = Done C ->
  (exists i j, i < length A /\ j < length B /\
     C = (skipn i A ++ firstn i A) ++ (skipn j B ++ firstn j B)) /\
  Permutation C (A ++ B).
Proof.
  intros HA HB Hrun.
  destruct (@build_oneline_contour_rotations fuel A B C HA HB Hrun) as [i [j [Hi [Hj ->]]]].
  split; [eauto |].
  apply Permutation_app; apply rotation_perm.
Qed.

Lemma build_oneline_contour_keeps_points_witness :
  let A := [mk_point 1 1; mk_point 0 0] in
  let B := [mk_point 2 2; mk_point 3 3] in
  Permutation
    [mk_point 0 0; mk_point 1 1; mk_point 2 2; mk_point 3 3] (A ++ B).
Proof.
  intros A B.
  refine (proj2 (@build_oneline_contour_keeps_points 3 A B _ _ _ _));
    [discriminate | discriminate | vm_compute; reflexivity].
Defined.

(** Whatever the fuel, what [add_contour_to_builder] returns is the builder
    followed by between one and all of the vertices of the contour. *)
Lemma add_contour_to_builder_returns (fuel : nat)
  (builder builder' : contour_builder_type) (c : contour_type)
  (beg end_ : contour_circulator) :
  over c beg -> over c end_ ->
  add_contour_to_builder fuel builder c beg end_ = Done builder' ->
  exists part, builder' = builder ++ part /\ part <> [] /\
               length part <= length c /\ incl part c.
Proof.
  intros Hb He Hrun.
  destruct (@add_contour_to_builder_run c beg end_ Hb He) as [d [Hd [_ [_ H]]]].
  assert (Hle : fuel <= Nat.max fuel (S d)) by lia.
  apply (@add_contour_to_builder_mono fuel (Nat.max fuel (S d)) Hle) in Hrun.
  rewrite (H (Nat.max fuel (S d)) builder) in Hrun by lia.
  injection Hrun as <-. eexists. split; [reflexivity |].
  split; [rewrite arc_S; now destruct (arc c _ (itr_ beg) d) |].
  split; [rewrite arc_length; lia |].
  apply arc_incl. pose proof (proj2 Hb). destruct c; [simpl in *; lia | discriminate].
Qed.

Lemma merge_parts (fuel : nat) (A B C : contour_type) :
  A <> [] -> B <> [] -> merge fuel A B = Done C ->
  exists CA CB, C = CA ++ CB /\ CA <> [] /\ CB <> [] /\
    incl CA A /\ incl CB B /\ length CA <= length A /\ length CB <= length B.
Proof.
  intros HA HB Hrun. unfold merge in Hrun.
  destruct (is_on_one_line2 A B).
  - destruct (@build_oneline_contour_rotations fuel A B C HA HB Hrun) as [i [j [Hi [Hj ->]]]].
    exists (skipn i A ++ firstn i A), (skipn j B ++ firstn j B).
    pose proof (rotation_perm A i) as PA. pose proof (rotation_perm B j) as PB.
    split; [reflexivity |].
    split; [intros E; rewrite E in PA; apply Permutation_nil in PA; auto |].
    split; [intros E; rewrite E in PB; apply Permutation_nil in PB; auto |].
    split; [intros q Hq; eapply Permutation_in; eauto |].
    split; [intros q Hq; eapply Permutation_in; eauto |].
    rewrite (Permutation_length PA), (Permutation_length PB). lia.
  - apply (@bind_Done_safe _ _ _ _ _ _ (@safe_set_extreme point_gt fuel A (circulator A)
                             (over_circulator HA))) in Hrun.
    destruct Hrun as [a [Ha [_ Hrun]]].
    apply (@bind_Done_safe _ _ _ _ _ _ (@safe_set_extreme point_lt fuel B (circulator B)
                             (over_circulator HB))) in Hrun.
    destruct Hrun as [b [Hb [_ Hrun]]].
    apply (@bind_Done_safe _ _ _ _ _ _ (@safe_find_tangent fuel A B (a, b) (conj Ha Hb))) in Hrun.
    destruct Hrun as [[a_down b_down] [[Had Hbd] [_ Hrun]]]. simpl in Had, Hbd.
    apply (@bind_Done_safe _ _ _ _ _ _ (@safe_set_extreme point_gt fuel A a_down Had)) in Hrun.
    destruct Hrun as [a' [Ha' [_ Hrun]]].
    apply (@bind_Done_safe _ _ _ _ _ _ (@safe_set_extreme point_lt fuel B b_down Hbd)) in Hrun.
    destruct Hrun as [b' [Hb' [_ Hrun]]].
    apply (@bind_Done_safe _ _ _ _ _ _ (@safe_find_tangent fuel B A (b', a') (conj Hb' Ha'))) in Hrun.
    destruct Hrun as [[b_up a_up] [[Hbu Hau] [_ Hrun]]]. simpl in Hbu, Hau.
    apply bind_Done in Hrun. destruct Hrun as [b1 [H1 Hrun]].
    apply bind_Done in Hrun. destruct Hrun as [b2 [H2 Hrun]].
    injection Hrun as <-.
    destruct (@add_contour_to_builder_returns fuel _ _ A a_up a_down Hau Had H1)
      as [CA [-> [HCA [HlA HiA]]]].
    destruct (@add_contour_to_builder_returns fuel _ _ B b_down b_up Hbd Hbu H2)
      as [CB [-> [HCB [HlB HiB]]]].
    exists CA, CB. repeat split; auto.
Qed.

(** X13.  Whatever [merge] returns for two non-empty contours is a part of
    [A] followed by a part of [B]: each part is non-empty, holds only
    vertices of its contour and no more vertices than the contour has. *)
Theorem merge_joins_two_parts (fuel : nat) (A B C : contour_type) :
  A <> [] -> B <> [] -> merge fuel A B = Done C ->
  exists CA CB, C = CA ++ CB /\ CA <> [] /\ CB <> [] /\
    incl CA A /\ incl CB B /\ length CA <= length A /\ length CB <= length B.
Proof. exact (@merge_parts fuel A B C). Qed.

Lemma merge_joins_two_parts_witness :
  let A := [mk_point 0 0; mk_point 0 2] in
  let B := [mk_point 1 1; mk_point 2 0; mk_point 2 2] in
  exists CA CB,
    [mk_point 0 2; mk_point 0 0; mk_point 2 0; mk_point 2 2] = CA ++ CB /\
    CA <> [] /\ CB <> [] /\ incl CA A /\ incl CB B /\
    length CA <= length A /\ length CB <= length B.
Proof.
  intros A B.
  apply (@merge_joins_two_parts 4 A B);
    [discriminate | discriminate | vm_compute; reflexivity].
Defined.

Lemma merge_hull_impl_size (fuel : nat) :
  forall (rng : list point_type) (h : contour_type),
    rng <> [] -> merge_hull_impl fuel rng = Done h ->
    1 <= length h <= length rng /\ (2 <= length rng -> 2 <= length h).
Proof.
  induction fuel as [| fuel IH]; intros rng h Hne Hrun; [discriminate |].
  rewrite merge_hull_impl_S in Hrun.
  destruct (Nat.leb_spec (length rng) 2) as [Hle | Hgt].
  - unfold get_result, new_builder in Hrun. rewrite fold_add_point in Hrun.
    injection Hrun as <-. simpl.
    destruct rng; [contradiction | simpl; lia].
  - pose proof (split_range_length rng) as [Hl Hr].
    destruct (half_bounds Hgt) as [H1 H2].
    apply bind_Done in Hrun. destruct Hrun as [L [HL Hrun]].
    apply bind_Done in Hrun. destruct Hrun as [R [HR Hrun]].
    assert (Hln : fst (split_range rng) <> [])
      by (intros E; rewrite E in Hl; cbn [length] in Hl; lia).
    assert (Hrn : snd (split_range rng) <> [])
      by (intros E; rewrite E in Hr; cbn [length] in Hr; lia).
    destruct (IH _ _ Hln HL) as [[HL1 HL2] _].
    destruct (IH _ _ Hrn HR) as [[HR1 HR2] _].
    assert (HLn : L <> []) by (intros ->; simpl in HL1; lia).
    assert (HRn : R <> []) by (intros ->; simpl in HR1; lia).
    destruct (@merge_parts fuel L R h HLn HRn Hrun)
      as [CA [CB [-> [HCA [HCB [_ [_ [HlA HlB]]]]]]]].
    rewrite length_app.
    assert (1 <= length CA) by (destruct CA; [contradiction | simpl; lia]).
    assert (1 <= length CB) by (destruct CB; [contradiction | simpl; lia]).
    lia.
Qed.

(** X14.  A contour returned by [merge_hull] has at least two vertices and no
    more vertices than there are input points. *)
Theorem merge_hull_size (fuel : nat) (pts : list point_type) (h : contour_type) :
  merge_hull fuel pts = Done h -> 2 <= length h <= length pts.
Proof.
  intros Hrun. unfold merge_hull in Hrun.
  destruct (Nat.ltb_spec (length pts) 2) as [Hlt | Hge]; [discriminate |].
  pose proof (Permutation_length (sort_perm pts)) as Hlen.
  assert (Hne : sort pts <> [])
    by (intros E; rewrite E in Hlen; simpl in Hlen; lia).
  destruct (@merge_hull_impl_size fuel (sort pts) h Hne Hrun) as [[_ Hup] Hlow].
  rewrite Hlen in *. split; [apply Hlow; exact Hge | exact Hup].
Qed.

Lemma merge_hull_size_witness :
  let pts := [mk_point 2 2; mk_point 0 0; mk_point 1 1; mk_point 2 0; mk_point 0 2] in
  2 <= 4 <= length pts.
Proof.
  intros pts.
  exact (@merge_hull_size 6 pts
           [mk_point 0 2; mk_point 0 0; mk_point 2 0; mk_point 2 2] eq_refl).
Defined.

(* ================================================================== *)
(** ** The order of the points and the sorted input *)
(* ================================================================== *)

Lemma point_lt_spec (a b : point_type) :
  point_lt a b = true <->
  (px a < px b \/ (px a = px b /\ py a < py b))%Z.
Proof.
  unfold point_lt. rewrite orb_true_iff, andb_true_iff.
  rewrite !Z.ltb_lt, Z.eqb_eq. reflexivity.
Qed.

Lemma point_lt_false (a b : point_type) :
  point_lt a b = false <->
  (px b < px a \/ (px a = px b /\ py b <= py a))%Z.
Proof.
  rewrite <- not_true_iff_false, point_lt_spec. lia.
Qed.

Lemma point_lt_trans (a b c : point_type) :
  point_lt a b = true -> point_lt b c = true -> point_lt a c = true.
Proof. rewrite !point_lt_spec. lia. Qed.

Lemma point_le_trans (a b c : point_type) :
  point_lt b a = false -> point_lt c b = false -> point_lt c a = false.
Proof. rewrite !point_lt_false. lia. Qed.

Lemma point_le_antisym (a b : point_type) :
  point_lt a b = false -> point_lt b a = false -> a = b.
Proof.
  rewrite !point_lt_false. destruct a as [xa ya], b as [xb yb]. simpl.
  intros H1 H2. f_equal; lia.
Qed.

Lemma insert_In (p q : point_type) (l : list point_type) :
  In q (insert p l) <-> q = p \/ In q l.
Proof.
  split.
  - intros H. apply (Permutation_in _ (insert_perm p l)) in H.
    destruct H; auto.
  - intros H. apply (Permutation_in _ (Permutation_sym (insert_perm p l))).
    destruct H; [left | right]; auto.
Qed.

Lemma insert_ascending (p : point_type) (l : list point_type) :
  ascending l -> ~ In p l -> ascending (insert p l).
Proof.
  unfold ascending. induction l as [| q l IH]; intros Hs Hp; simpl.
  - constructor; constructor.
  - inversion Hs as [| q' l' Hl Hq]; subst.
    destruct (point_lt q p) eqn:E.
    + constructor; [apply IH; [exact Hl | intros H; apply Hp; now right] |].
      apply Forall_forall. intros x Hx. apply insert_In in Hx.
      destruct Hx as [-> | Hx]; [exact E |].
      rewrite Forall_forall in Hq. now apply Hq.
    + assert (Hpq : point_lt p q = true).
      { destruct (point_lt p q) eqn:E'; [reflexivity |].
        exfalso. apply Hp. left. now apply point_le_antisym. }
      constructor; [exact Hs |].
      constructor; [exact Hpq |].
      rewrite Forall_forall in *. intros x Hx.
      eapply point_lt_trans; [exact Hpq | now apply Hq].
Qed.

Lemma sort_ascending (pts : list point_type) :
  NoDup pts -> ascending (sort pts).
Proof.
  induction 1 as [| p pts Hp Hnd IH]; simpl; [constructor |].
  apply insert_ascending; [exact IH |].
  intros H. apply Hp. eapply Permutation_in; [apply sort_perm | exact H].
Qed.

Lemma sort_nondescending (pts : list point_type) : nondescending (sort pts).
Proof.
  apply Sorted_StronglySorted; [| apply sort_sorted].
  intros a b c Hab Hbc. eapply point_le_trans; eauto.
Qed.

Lemma nondescending_unique (l1 l2 : list point_type) :
  nondescending l1 -> nondescending l2 -> Permutation l1 l2 -> l1 = l2.
Proof.
  unfold nondescending. revert l2.
  induction l1 as [| a l1 IH]; intros l2 H1 H2 Hp.
  - apply Permutation_nil in Hp. now subst.
  - destruct l2 as [| b l2];
      [apply Permutation_sym, Permutation_nil in Hp; discriminate |].
    inversion H1 as [| a' l1' Hs1 Ha]; subst.
    inversion H2 as [| b' l2' Hs2 Hb]; subst.
    rewrite Forall_forall in Ha, Hb.
    assert (Hab : a = b).
    { assert (Hin1 : In a (b :: l2))
        by (eapply Permutation_in; [exact Hp | now left]).
      assert (Hin2 : In b (a :: l1))
        by (eapply Permutation_in; [apply Permutation_sym; exact Hp | now left]).
      destruct Hin1 as [E | Hin1]; [now symmetry |].
      destruct Hin2 as [E | Hin2]; [exact E |].
      apply point_le_antisym; [apply Hb | apply Ha]; assumption. }
    subst b. f_equal. apply IH; auto.
    eapply Permutation_cons_inv; eauto.
Qed.

Lemma sort_perm_eq (pts pts' : list point_type) :
  Permutation pts pts' -> sort pts = sort pts'.
Proof.
  intros Hp. apply nondescending_unique; try apply sort_nondescending.
  rewrite (sort_perm pts), (sort_perm pts'). exact Hp.
Qed.

(** X17.  [merge_hull] does not depend on the order in which the input points
    are given: two arrangements of the same points, repeated points counted,
    have the same outcome. *)
Theorem merge_hull_order_independent (fuel : nat) (pts pts' : list point_type) :
  Permutation pts pts' -> merge_hull fuel pts = merge_hull fuel pts'.
Proof.
  intros Hp. unfold merge_hull.
  now rewrite (Permutation_length Hp), (sort_perm_eq Hp).
Qed.

Lemma merge_hull_order_independent_witness :
  merge_hull 6 [mk_point 2 2; mk_point 0 0; mk_point 1 1; mk_point 2 0; mk_point 0 2] =
  merge_hull 6 [mk_point 0 0; mk_point 2 2; mk_point 1 1; mk_point 2 0; mk_point 0 2].
Proof.
  apply merge_hull_order_independent. apply perm_swap.
Defined.

(** X16.  Given exactly two points, [merge_hull] returns them in ascending
    order, the smaller point first; no loop of the merge runs. *)
Theorem merge_hull_two_points (fuel : nat) (p q : point_type) :
  0 < fuel ->
  merge_hull fuel [p; q] = Done (if point_lt q p then [q; p] else [p; q]).
Proof.
  intros Hfuel. destruct fuel as [| fuel]; [lia |].
  unfold merge_hull. simpl sort. simpl length. cbv iota beta.
  change (2 <? 2) with false. cbv iota.
  rewrite merge_hull_impl_S.
  destruct (point_lt q p); reflexivity.
Qed.

Lemma merge_hull_two_points_witness :
  merge_hull 1 [mk_point 3 1; mk_point 0 5] = Done [mk_point 0 5; mk_point 3 1].
Proof.
  exact (@merge_hull_two_points 1 (mk_point 3 1) (mk_point 0 5) ltac:(lia)).
Defined.

(* ================================================================== *)
(** ** Collinear input *)
(* ================================================================== *)

Lemma ascending_app_inv (l1 l2 : list point_type) :
  ascending (l1 ++ l2) -> ascending l1 /\ ascending l2.
Proof.
  unfold ascending. induction l1 as [| a l1 IH]; simpl; intros H.
  - split; [constructor | exact H].
  - inversion H as [| a' l' Hs Ha]; subst.
    destruct (IH Hs) as [H1 H2]. split; [| exact H2].
    constructor; [exact H1 |].
    apply Forall_app in Ha. apply Ha.
Qed.

Lemma ascending_first_extreme (c : contour_type) :
  ascending c -> 2 <= length c -> is_extreme point_lt c 0 = true.
Proof.
  intros Hs Hn. destruct c as [| p0 [| p1 t]]; simpl in Hn; try lia.
  inversion Hs as [| a l _ Hall]; subst. rewrite Forall_forall in Hall.
  unfold is_extreme.
  set (c := p0 :: p1 :: t) in *.
  assert (Hlen : length c = S (S (length t))) by reflexivity.
  replace ((0 + length c - 1) mod length c) with (S (length t))
    by (rewrite Nat.mod_small; lia).
  replace ((0 + 1) mod length c) with 1 by (rewrite Nat.mod_small; lia).
  destruct (nth_error c (S (length t))) as [q |] eqn:Eq;
    [| apply nth_error_None in Eq; lia].
  change (nth_error c 0) with (Some p0). change (nth_error c 1) with (Some p1).
  assert (Hq : In q (p1 :: t)) by (eapply nth_error_In; exact Eq).
  cbv iota beta.
  rewrite (Hall q Hq), (Hall p1 (or_introl eq_refl)). reflexivity.
Qed.

(** On an ascending contour [set_leftmost] started at the first vertex stays
    there. *)
Lemma set_leftmost_ascending (fuel : nat) (c : contour_type) :
  ascending c -> c <> [] -> 0 < fuel ->
  set_leftmost fuel (circulator c) = Done (circulator c).
Proof.
  intros Hs Hne Hfuel.
  pose proof (over_circulator Hne) as Hk.
  destruct (Nat.eq_dec (length c) 1) as [E1 | N1].
  - apply (@set_extreme_single point_lt fuel c _ Hk E1).
  - assert (Hn : 2 <= length c) by (pose proof (over_nonempty Hk); lia).
    unfold set_leftmost, set_extreme.
    rewrite (circ_eqb_inc_false Hk Hn), andb_false_r.
    rewrite (@locate_extreme point_lt c 0 fuel (circulator c) Hk);
      [| intros e He; lia | | exact Hfuel].
    + simpl. rewrite Nat.mod_small by lia. reflexivity.
    + simpl. rewrite Nat.mod_small by lia.
      now apply ascending_first_extreme.
Qed.

Lemma full_turn_total (fuel : nat) (c : contour_type)
  (builder : contour_builder_type) (k : contour_circulator) :
  over c k -> length c <= fuel ->
  exists r p, walk inc fuel builder k (dec k) = Done r /\
    deref (dec k) = Done p /\
    add_point (fst r) p = builder ++ skipn (itr_ k) c ++ firstn (itr_ k) c.
Proof.
  intros Hk Hfuel.
  destruct (@hit_forward (length c) (itr_ k) (itr_ (dec k))
              (proj2 Hk) (proj2 (over_dec Hk))) as [d [Hd [Hat Hbefore]]].
  assert (Hlt : d < fuel) by lia.
  pose proof (@walk_exact c 1 inc (@inc_stride c) d fuel builder k (dec k)
                Hk (over_dec Hk) Hbefore Hat Hlt) as Hrun.
  destruct (@full_turn_point fuel c builder k _ Hk Hrun) as [p [Ep E]].
  eauto.
Qed.

Lemma build_oneline_contour_ascending (fuel : nat) (A B : contour_type) :
  ascending A -> ascending B -> A <> [] -> B <> [] ->
  length A <= fuel -> length B <= fuel ->
  build_oneline_contour fuel A B = Done (A ++ B).
Proof.
  intros HsA HsB HA HB HfA HfB.
  assert (Hfuel : 0 < fuel) by (destruct A; [contradiction | simpl in HfA; lia]).
  unfold build_oneline_contour.
  rewrite (set_leftmost_ascending HsA HA Hfuel). unfold bind at 1.
  rewrite (set_leftmost_ascending HsB HB Hfuel). unfold bind at 1.
  destruct (@full_turn_total fuel A new_builder (circulator A)
              (over_circulator HA) HfA) as [[b1 k1] [p [-> [-> E1]]]].
  unfold bind at 1. unfold bind at 1. simpl in E1. rewrite E1.
  destruct (@full_turn_total fuel B (A ++ []) (circulator B)
              (over_circulator HB) HfB) as [[b2 k2] [q [-> [-> E2]]]].
  unfold bind. simpl in E2. rewrite E2.
  unfold get_result. now rewrite !app_nil_r.
Qed.

Lemma Collinear_incl (l1 l2 : list point_type) :
  incl l1 l2 -> Collinear l2 -> Collinear l1.
Proof. intros Hi H a b c Ha Hb Hc. apply H; auto. Qed.

Lemma merge_hull_impl_ascending (fuel : nat) :
  forall rng : list point_type,
    ascending rng -> Collinear rng -> length rng <= fuel -> 0 < fuel ->
    merge_hull_impl fuel rng = Done rng.
Proof.
  induction fuel as [| fuel IH]; intros rng Hs Hc Hlen Hfuel; [lia |].
  rewrite merge_hull_impl_S.
  destruct (Nat.leb_spec (length rng) 2) as [Hle | Hgt].
  - unfold get_result, new_builder. now rewrite fold_add_point.
  - pose proof (split_range_length rng) as [Hl Hr].
    pose proof (split_range_app rng) as Happ.
    destruct (half_bounds Hgt) as [H1 H2].
    destruct (split_range rng) as [l r]. cbn [fst snd] in *.
    assert (Hsl : ascending l /\ ascending r)
      by (apply ascending_app_inv; now rewrite Happ).
    destruct Hsl as [Hsl Hsr].
    assert (Hcl : Collinear l)
      by (apply Collinear_incl with (l2 := rng); [| exact Hc];
          rewrite <- Happ; apply incl_appl, incl_refl).
    assert (Hcr : Collinear r)
      by (apply Collinear_incl with (l2 := rng); [| exact Hc];
          rewrite <- Happ; apply incl_appr, incl_refl).
    rewrite (IH l Hsl Hcl) by lia. rewrite (IH r Hsr Hcr) by lia.
    unfold bind. rewrite merge_bypass;
      [| apply is_on_one_line2_complete; now rewrite Happ].
    rewrite build_oneline_contour_ascending; try assumption; try lia.
    + now rewrite Happ.
    + intros ->. cbn [length] in Hl. lia.
    + intros ->. cbn [length] in Hr. lia.
Qed.

(** X15.  Given two or more pairwise different points that are all collinear,
    [merge_hull] returns, with fuel for as many loop tests as there are
    points, all the points in ascending order: the whole path, not its two
    ends only. *)
Theorem merge_hull_collinear (fuel : nat) (pts : list point_type) :
  NoDup pts -> Collinear pts -> 2 <= length pts -> length pts <= fuel ->
  merge_hull fuel pts = Done (sort pts).
Proof.
  intros Hnd Hc Hlen Hfuel. unfold merge_hull.
  destruct (Nat.ltb_spec (length pts) 2); [lia |].
  pose proof (sort_perm pts) as Hp.
  apply merge_hull_impl_ascending.
  - now apply sort_ascending.
  - apply Collinear_incl with (l2 := pts); [| exact Hc].
    intros q Hq. eapply Permutation_in; eauto.
  - rewrite (Permutation_length Hp). exact Hfuel.
  - lia.
Qed.

Lemma merge_hull_collinear_witness :
  merge_hull 4 [mk_point 3 0; mk_point 1 0; mk_point 0 0; mk_point 2 0] =
  Done [mk_point 0 0; mk_point 1 0; mk_point 2 0; mk_point 3 0].
Proof.
  apply (@merge_hull_collinear 4
           [mk_point 3 0; mk_point 1 0; mk_point 0 0; mk_point 2 0]).
  - repeat constructor; simpl; intuition discriminate.
  - apply all_collinear_spec. reflexivity.
  - simpl; lia.
  - simpl; lia.
Defined.

(* ================================================================== *)
(** ** Three points *)
(* ================================================================== *)

(** Runs the merge on vertices known only by the turns they make and by their
    order: unfolds the functions of the merge and replaces each [turn] and
    each comparison by its value in the context. *)
Ltac run_merge :=
  repeat (progress (
    unfold merge, is_on_one_line2, is_on_one_line, set_rightmost, set_leftmost,
      set_extreme, find_tangent, add_contour_to_builder,
      add_oneline_contour_to_builder, add_convex_contour_to_builder, walk,
      not_extreme, step_locator, not_tangent_prev, not_tangent_next, prev, next,
      deref, inc, dec, circ_eqb, circulator, is_tangent, add_point, get_result,
      new_builder, vertices_num, point_gt, bind,
      no_right_turn, contains, corners, edges, vertex;
    cbn -[turn point_lt];
    repeat match goal with H : turn _ _ _ = _ |- _ => rewrite H end;
    repeat match goal with H : point_lt _ _ = _ |- _ => rewrite H end)).

Lemma merge_hull_impl_three (a b c : point_type) :
  point_lt a b = true -> point_lt b c = true -> turn a b c <> COLLINEAR ->
  let h := match turn a b c with LEFT => [a; b; c] | _ => [a; c; b] end in
  merge_hull_impl 4 [a; b; c] = Done h /\
  no_right_turn h = true /\ contains h [a; b; c] = true.
Proof.
  intros Hab Hbc Hnc.
  assert (Hcb : point_lt c b = false) by now apply point_lt_asym.
  pose proof (turn_two_equal a b) as (Daab & Daba & Dabb).
  pose proof (turn_two_equal a c) as (Daac & Daca & Dacc).
  pose proof (turn_two_equal b a) as (Dbba & Dbab & Dbaa).
  pose proof (turn_two_equal b c) as (Dbbc & Dbcb & Dbcc).
  pose proof (turn_two_equal c a) as (Dcca & Dcac & Dcaa).
  pose proof (turn_two_equal c b) as (Dccb & Dcbc & Dcbb).
  pose proof (turn_rotate a b c) as C1. pose proof (turn_rotate b c a) as C2.
  pose proof (turn_rotate a c b) as C3. pose proof (turn_rotate c b a) as C4.
  destruct (turn a b c) eqn:Habc; [contradiction | |].
  - assert (Hbca : turn b c a = LEFT) by congruence.
    assert (Hcab : turn c a b = LEFT) by congruence.
    assert (Hbac : turn b a c = RIGHT) by now apply turn_swap_first.
    assert (Hacb : turn a c b = RIGHT) by congruence.
    assert (Hcba : turn c b a = RIGHT) by congruence.
    clear C1 C2 C3 C4. cbv zeta. repeat split; run_merge; reflexivity.
  - assert (Hbca : turn b c a = RIGHT) by congruence.
    assert (Hcab : turn c a b = RIGHT) by congruence.
    assert (Hbac : turn b a c = LEFT).
    { destruct (turn b a c) eqn:E; [| reflexivity |].
      - apply turn_COLLINEAR_iff in E. apply turn_RIGHT_iff in Habc.
        unfold cross, point_sub in *. simpl in *. lia.
      - apply turn_swap_first in E. congruence. }
    assert (Hacb : turn a c b = LEFT) by congruence.
    assert (Hcba : turn c b a = LEFT) by congruence.
    clear C1 C2 C3 C4. cbv zeta. repeat split; run_merge; reflexivity.
Qed.

(** X18.  Given three points that are not collinear, in any order,
    [merge_hull] returns, with fuel for four loop tests, the three of them as
    a counter-clockwise triangle starting at the smallest point: with
    [a < b < c] the contour is [a, b, c] when they turn [LEFT] and [a, c, b]
    when they turn [RIGHT].  The contour makes no [RIGHT] turn and no input
    point is to the right of one of its edges. *)
Theorem merge_hull_triangle (fuel : nat) (pts : list point_type)
  (a b c : point_type) :
  Permutation pts [a; b; c] ->
  point_lt a b = true -> point_lt b c = true -> turn a b c <> COLLINEAR ->
  4 <= fuel ->
  let h := match turn a b c with LEFT => [a; b; c] | _ => [a; c; b] end in
  merge_hull fuel pts = Done h /\
  no_right_turn h = true /\ contains h pts = true.
Proof.
  intros Hp Hab Hbc Hnc Hfuel h.
  destruct (@merge_hull_impl_three a b c Hab Hbc Hnc) as [Hrun [Hconv Hcont]].
  fold h in Hrun, Hconv, Hcont.
  assert (Hsort : sort pts = [a; b; c]).
  { rewrite (sort_perm_eq Hp). simpl.
    rewrite (point_lt_asym _ _ Hbc). simpl.
    now rewrite (point_lt_asym _ _ Hab). }
  split; [| split; [exact Hconv |]].
  - apply (@merge_hull_mono 4 fuel pts Hfuel). unfold merge_hull.
    rewrite (Permutation_length Hp), Hsort. exact Hrun.
  - unfold contains in *. rewrite forallb_forall in *.
    intros e He. specialize (Hcont e He). rewrite forallb_forall in *.
    intros q Hq. apply Hcont. eapply Permutation_in; eauto.
Qed.

Lemma merge_hull_triangle_witness :
  merge_hull 4 [mk_point 4 1; mk_point 0 0; mk_point 2 5] =
  Done [mk_point 0 0; mk_point 4 1; mk_point 2 5].
Proof.
  refine (proj1 (@merge_hull_triangle 4 [mk_point 4 1; mk_point 0 0; mk_point 2 5]
                   (mk_point 0 0) (mk_point 2 5) (mk_point 4 1) _ _ _ _ _)).
  - apply perm_trans with [mk_point 0 0; mk_point 4 1; mk_point 2 5];
      [apply perm_swap | apply perm_skip, perm_swap].
  - reflexivity.
  - reflexivity.
  - discriminate.
  - lia.
Defined.

(* ================================================================== *)
(** ** The sign, the builder and the base case *)
(* ================================================================== *)

(** X19.  [sgn] is the sign function of the integers: it agrees with [Z.sgn],
    so the sign of a product is the product of the signs and the sign of an
    opposite is the opposite sign. *)
Theorem sgn_sign (x y : Z) :
  sgn x = Z.sgn x /\
  sgn (x * y) = (sgn x * sgn y)%Z /\
  sgn (- x) = (- sgn x)%Z.
Proof.
  assert (H : forall z, sgn z = Z.sgn z).
  { intros z. destruct (sgn_cases z) as [[Hz ->] | [[Hz ->] | [Hz ->]]]; lia. }
  rewrite !H. split; [reflexivity |]. split.
  - apply Z.sgn_mul.
  - apply Z.sgn_opp.
Qed.




